(** * DestructiveClip: a shallow embedding of [destructiveclip.py]

    The geometry kernel ([approx_equal], [mid_point], [max_x],
    [line_intersection], [inside_region]), the clipping engine
    ([clip_line], [cull_segmented_line], [clip_line_segments]), the path
    segmenter ([simple_path_to_line_segments]) and the path builder
    ([line_segments_to_simple_path]) of the class [DestructiveClip].

    Python values are modelled as follows.
    - A coordinate list such as [[x, y]] is a [list num]; subscripting
      is [index], which raises [IndexError] out of range.
    - A line segment [[p, q]] is a pair of coordinate lists.
    - An exception is the [Raise] outcome of the [result] monad;
      [sys.exit()] is the exception [SystemExit].
    - The numbers are the fields of the class [Number], and the
      program runs on its instance [float_number]: IEEE 754 binary64,
      Python's [float]. *)

From Stdlib Require Import Floats ZArith Lia.
Set Warnings "-inexact-float".
From stdpp Require Import base list strings gmap.

(** ** Outcomes of a call *)

Inductive exn : Type :=
  | IndexError
  | ZeroDivisionError
  | SystemExit (stderr : string).

Inductive result (A : Type) : Type :=
  | Ok (a : A)
  | Raise (e : exn).
Arguments Ok {A} a.
Arguments Raise {A} e.

#[global] Instance result_ret : MRet result := @Ok.
#[global] Instance result_bind : MBind result :=
  λ A B f m, match m with Ok a => f a | Raise e => Raise e end.

(** [for x in xs: body], threading the variables the body assigns. *)
Fixpoint for_each {S A : Type} (xs : list A) (body : S → A → result S) (s : S)
  : result S :=
  match xs with
  | [] => Ok s
  | x :: rest => s' ← body s x; for_each rest body s'
  end.

(** [try: body / except IndexError: handler]. *)
Definition try_except_IndexError {A : Type} (body handler : result A) : result A :=
  match body with
  | Raise IndexError => handler
  | r => r
  end.

(** ** Numbers *)

Class Number : Type := {
  num : Type;
  nadd : num → num → num;
  nsub : num → num → num;
  nmul : num → num → num;
  ndiv : num → num → num;
  nopp : num → num;
  nabs : num → num;
  nleb : num → num → bool;
  nltb : num → num → bool;
  is_zero : num → bool;
  zero : num;
  one : num;
  two : num;
  TOLERANCE : num
}.

(** What the clipping code needs of the numbers: a divisor that is zero
    is within [TOLERANCE] of [0.0]. *)
Class NumberLaws (N : Number) : Prop := {
  zero_within_tolerance :
    ∀ d : num, is_zero d = true → nleb (nabs (nsub d zero)) TOLERANCE = true
}.

Declare Scope num_scope.
Delimit Scope num_scope with num.
Notation "a + b" := (nadd a b) : num_scope.
Notation "a - b" := (nsub a b) : num_scope.
Notation "a * b" := (nmul a b) : num_scope.
Notation "- a" := (nopp a) : num_scope.
Notation "a <=? b" := (nleb a b) : num_scope.
Notation "a >=? b" := (nleb b a) : num_scope.

(** Python's [float]. *)
Definition float_number : Number := {|
  num := float;
  nadd := PrimFloat.add;
  nsub := PrimFloat.sub;
  nmul := PrimFloat.mul;
  ndiv := PrimFloat.div;
  nopp := PrimFloat.opp;
  nabs := PrimFloat.abs;
  nleb := PrimFloat.leb;
  nltb := PrimFloat.ltb;
  is_zero := λ d, PrimFloat.eqb d 0%float;
  zero := 0%float;
  one := 1%float;
  two := 2%float;
  TOLERANCE := 0.0001%float
|}.

(** [self.curve_error], built in [__init__] from two pieces. *)
Definition newline : string := String (Ascii.ascii_of_nat 10) EmptyString.
Definition curve_error : string :=
  ("Cnable to parse path." ++ newline ++ "Consider removing curves "
   ++ "with Extensions > Modify Path > Flatten Beziers...")%string.

Section GeometryKernel.
Context {N : Number}.
Local Open Scope num_scope.

Definition point : Type := list num.
Definition line : Type := point * point.

(** [p[i]] *)
Definition index (p : point) (i : nat) : result num :=
  match p !! i with
  | Some x => Ok x
  | None => Raise IndexError
  end.

(** [a / b] on floats *)
Definition py_div (a b : num) : result num :=
  if is_zero b then Raise ZeroDivisionError else Ok (ndiv a b).

(** [max(a, b)]: the first argument unless the second is greater. *)
Definition py_max (a b : num) : num := if nltb a b then b else a.

Definition approx_equal (a b : num) : bool := nabs (a - b) <=? TOLERANCE.

Definition mid_point (l : line) : result point :=
  a0 ← index l.1 0; b0 ← index l.2 0;
  a1 ← index l.1 1; b1 ← index l.2 1;
  Ok [ndiv (a0 + b0) two; ndiv (a1 + b1) two].

Definition max_x (line_segments : list line) : result num :=
  for_each line_segments
    (λ maxx l,
       x0 ← index l.1 0;
       let maxx := py_max maxx x0 in
       x1 ← index l.2 0;
       Ok (py_max maxx x1))
    zero.

(** [[p_to[0] - p_from[0], p_to[1] - p_from[1]]] *)
Definition direction (p_to p_from : point) : result (num * num) :=
  a0 ← index p_to 0; b0 ← index p_from 0;
  a1 ← index p_to 1; b1 ← index p_from 1;
  Ok (a0 - b0, a1 - b1).

Definition line_intersection (l1_from l1_to l2_from l2_to : point)
  : result (option point) :=
  '(d_l1, d_l2) ← try_except_IndexError
      (d_l1 ← direction l1_to l1_from;
       d_l2 ← direction l2_to l2_from;
       Ok (d_l1, d_l2))
      (Raise (SystemExit curve_error));
  let denominator := - d_l2.1 * d_l1.2 + d_l1.1 * d_l2.2 in
  if negb (approx_equal denominator zero) then
    x1 ← index l1_from 0; x2 ← index l2_from 0;
    y1 ← index l1_from 1; y2 ← index l2_from 1;
    s ← py_div (- d_l1.2 * (x1 - x2) + d_l1.1 * (y1 - y2)) denominator;
    y1 ← index l1_from 1; y2 ← index l2_from 1;
    x1 ← index l1_from 0; x2 ← index l2_from 0;
    t ← py_div (d_l2.1 * (y1 - y2) - d_l2.2 * (x1 - x2)) denominator;
    if (s >=? zero) && (s <=? one) && (t >=? zero) && (t <=? one) then
      x1 ← index l1_from 0; y1 ← index l1_from 1;
      Ok (Some [x1 + t * d_l1.1; y1 + t * d_l1.2])
    else Ok None
  else Ok None.

Definition inside_region (p : point) (line_segments : list line)
    (line_segments_max_x : num) : result bool :=
  y ← index p 1;
  let ray : line := (p, [line_segments_max_x * two; y]) in
  crossings ← for_each line_segments
    (λ (crossings : nat) l,
       i ← line_intersection l.1 l.2 ray.1 ray.2;
       Ok (match i with Some _ => crossings + 1 | None => crossings end)%nat)
    0%nat;
  Ok (Nat.eqb (crossings mod 2) 1).

Definition cull_segmented_line (segmented_line line_segments : list line)
    (line_segments_max_x : num) : result (list line) :=
  for_each segmented_line
    (λ culled segment,
       m ← mid_point segment;
       inside ← inside_region m line_segments line_segments_max_x;
       Ok (if inside : bool then culled ++ [segment] else culled))
    [].

Definition clip_line (l : line) (line_segments : list line) : result (list line) :=
  for_each line_segments
    (λ lines_write segment,
       let lines_read := lines_write in
       for_each lines_read
         (λ lines_write l,
            intersect ← line_intersection l.1 l.2 segment.1 segment.2;
            Ok (match intersect with
                | None => lines_write ++ [l]
                | Some i => lines_write ++ [(l.1, i); (i, l.2)]
                end))
         [])
    [l].

Definition clip_line_segments (line_segments_to_clip clipping_line_segments : list line)
  : result (list line) :=
  for_each line_segments_to_clip
    (λ clipped_lines line_to_clip,
       split ← clip_line line_to_clip clipping_line_segments;
       mx ← max_x clipping_line_segments;
       culled ← cull_segmented_line split clipping_line_segments mx;
       Ok (clipped_lines ++ culled))
    [].

End GeometryKernel.

(** ** Paths

    A path is the list of commands [[letter, arguments]] that
    [node.path.to_arrays()] yields and that [inkex.Path] collects with
    [append]. *)
Definition command {N : Number} : Type := string * list num.

(** What the names [first] and [prev] of the segmenter, and the ends of
    the segments it emits, can refer to: the list of arguments of a
    command (or the fresh [[]] of the close command), or, before they
    are first assigned, the very list object that [line_segments]
    names, since all four names start as [line_segments = first = prev
    = this = []]. *)
Inductive pyval {N : Number} : Type :=
  | PSelf
  | PList (l : list num).

Definition raw_line {N : Number} : Type := pyval * pyval.

Record segmenter_state {N : Number} : Type := {
  line_segments : list raw_line;
  first : pyval;
  prev : pyval;
  errors : gset string
}.

Definition curve_warning : string :=
  "Curve node detected (svg type C), this node will be handled as a regular node".

(** ["Invalid node type detected: {}. This script only handle type M, L, Z".format(kind)] *)
Definition invalid_warning (kind : string) : string :=
  ("Invalid node type detected: " ++ kind
   ++ ". This script only handle type M, L, Z")%string.

Section PathSegmenter.
Context {N : Number}.

(** [v == []], where the list of segments is what [PSelf] refers to. *)
Definition equals_empty_list (v : pyval) (segments : list raw_line) : bool :=
  match v with
  | PSelf => match segments with [] => true | _ => false end
  | PList l => match l with [] => true | _ => false end
  end.

(** The body of the loop of [simple_path_to_line_segments]. *)
Definition segmenter_step (st : segmenter_state) (cmd : command)
  : result segmenter_state :=
  let this := cmd.2 in
  st' ←
    (if String.eqb cmd.1 "M" then
       if equals_empty_list (first st) (line_segments st) then
         Ok {| line_segments := line_segments st; first := PList this;
               prev := prev st; errors := errors st |}
       else Ok st
     else if String.eqb cmd.1 "L" then
       Ok {| line_segments := line_segments st ++ [(prev st, PList this)];
             first := first st; prev := prev st; errors := errors st |}
     else if String.eqb cmd.1 "Z" then
       Ok {| line_segments := line_segments st ++ [(prev st, first st)];
             first := PList []; prev := prev st; errors := errors st |}
     else if String.eqb cmd.1 "C" then
       x ← index this 4; y ← index this 5;
       Ok {| line_segments := line_segments st ++ [(prev st, PList [x; y])];
             first := first st; prev := prev st;
             errors := errors st ∪ {[curve_warning]} |}
     else
       Ok {| line_segments := line_segments st; first := first st;
             prev := prev st;
             errors := errors st ∪ {[invalid_warning cmd.1]} |});
  Ok {| line_segments := line_segments st'; first := first st';
        prev := PList this; errors := errors st' |}.

Definition segmenter_init : segmenter_state :=
  {| line_segments := []; first := PSelf; prev := PSelf; errors := ∅ |}.

Definition simple_path_to_line_segments (path : list command)
  : result (list raw_line * gset string) :=
  st ← for_each path segmenter_step segmenter_init;
  Ok (line_segments st, errors st).

End PathSegmenter.

Section PathBuilder.
Context {N : Number}.

(** [end is None or not (approx_equal(end[0], start[0]) and
    approx_equal(end[1], start[1]))] *)
Definition needs_move (end_ : option point) (start : point) : result bool :=
  match end_ with
  | None => Ok true
  | Some e =>
      e0 ← index e 0; s0 ← index start 0;
      if approx_equal e0 s0 then
        e1 ← index e 1; s1 ← index start 1;
        Ok (negb (approx_equal e1 s1))
      else Ok true
  end.

Definition line_segments_to_simple_path (segments : list line)
  : result (list command) :=
  '(path, _) ← for_each segments
    (λ '(path, end_) l,
       let start := l.1 in
       move ← needs_move end_ start;
       let path := if move : bool then path ++ [("M", start)] else path in
       let end_ := l.2 in
       Ok (path ++ [("L", end_)], Some end_))
    ([], None);
  Ok path.

End PathBuilder.

(** ** Well-formed geometry and the words of the specification *)

Section Specification.
Context {N : Number}.
Local Open Scope num_scope.

(** A point has its two coordinates. *)
Definition wf_point (p : point) : Prop := 2 ≤ length p.
Definition wf_line (l : line) : Prop := wf_point l.1 ∧ wf_point l.2.

Definition px (p : point) : num := default zero (p !! 0).
Definition py (p : point) : num := default zero (p !! 1).

(** The cross product of the direction vectors of two segments. *)
Definition cross_denominator (a_from a_to b_from b_to : point) : num :=
  - (px b_to - px b_from) * (py a_to - py a_from)
  + (px a_to - px a_from) * (py b_to - py b_from).

(** The position of the crossing along the second segment. *)
Definition param_s (a_from a_to b_from b_to : point) : num :=
  ndiv (- (py a_to - py a_from) * (px a_from - px b_from)
        + (px a_to - px a_from) * (py a_from - py b_from))
       (cross_denominator a_from a_to b_from b_to).

(** The position of the crossing along the first segment. *)
Definition param_t (a_from a_to b_from b_to : point) : num :=
  ndiv ((px b_to - px b_from) * (py a_from - py b_from)
        - (py b_to - py b_from) * (px a_from - px b_from))
       (cross_denominator a_from a_to b_from b_to).

Definition in_unit_interval (v : num) : bool := (zero <=? v) && (v <=? one).

(** [from + t·(to − from)] *)
Definition point_along (p_from p_to : point) (t : num) : point :=
  [px p_from + t * (px p_to - px p_from); py p_from + t * (py p_to - py p_from)].

(** [intersect] in the words of the specification. *)
Definition intersect (a_from a_to b_from b_to : point) : option point :=
  if approx_equal (cross_denominator a_from a_to b_from b_to) zero then None
  else if in_unit_interval (param_s a_from a_to b_from b_to)
          && in_unit_interval (param_t a_from a_to b_from b_to)
       then Some (point_along a_from a_to (param_t a_from a_to b_from b_to))
       else None.

(** The far end of the ray that [inside_region] casts from [p]. *)
Definition ray_end (p : point) (boundary_max_x : num) : point :=
  [boundary_max_x * two; py p].

(** A boundary segment is crossed when [line_intersection] of it and
    the ray returns a point. *)
Definition crossed_by_ray (p : point) (boundary_max_x : num) (l : line) : bool :=
  match line_intersection l.1 l.2 p (ray_end p boundary_max_x) with
  | Ok (Some _) => true
  | _ => false
  end.

(** [build] in the words of the specification: the commands emitted
    for the segments, [current_end] being the end of the previous
    segment. *)
Definition move_needed (current_end : option point) (start : point) : bool :=
  match current_end with
  | None => true
  | Some e => negb (approx_equal (px e) (px start) && approx_equal (py e) (py start))
  end.

Fixpoint build (current_end : option point) (segments : list line) : list command :=
  match segments with
  | [] => []
  | s :: rest =>
      (if move_needed current_end s.1 then [("M", s.1)] else [])
      ++ ("L", s.2) :: build (Some s.2) rest
  end.

(** The bodies of the loops of [cull_segmented_line] and
    [clip_line_segments]. *)
Definition cull_body (boundary : list line) (mx : num)
    (culled : list line) (segment : line) : result (list line) :=
  m ← mid_point segment;
  inside ← inside_region m boundary mx;
  Ok (if inside : bool then culled ++ [segment] else culled).

Definition clip_body (boundary clipped_lines : list line) (line_to_clip : line)
  : result (list line) :=
  split ← clip_line line_to_clip boundary;
  mx ← max_x boundary;
  culled ← cull_segmented_line split boundary mx;
  Ok (clipped_lines ++ culled).

(** What [cull_segmented_line] keeps: the midpoint is inside. *)
Definition kept_by_cull (boundary : list line) (mx : num) (l : line) : Prop :=
  ∃ m, mid_point l = Ok m ∧ inside_region m boundary mx = Ok true.

(** The body of the loop of the builder. *)
Definition build_body
  : list command * option point → line → result (list command * option point) :=
  λ '(path, end_) l,
    let start := l.1 in
    move ← needs_move end_ start;
    let path := if move : bool then path ++ [("M", start)] else path in
    let end_ := l.2 in
    Ok (path ++ [("L", end_)], Some end_).

(** A command that is none of move, line, close and curve. *)
Definition unsupported (kind : string) : Prop :=
  kind ≠ "M" ∧ kind ≠ "L" ∧ kind ≠ "Z" ∧ kind ≠ "C".


(** Two points at the same place. *)
Definition same_coordinates (p q : point) : Prop :=
  px p = px q ∧ py p = py q.

(** What [cull_segmented_line] drops: the midpoint is not inside. *)
Definition dropped_by_cull (boundary : list line) (mx : num) (l : line) : Prop :=
  ∃ m, mid_point l = Ok m ∧ inside_region m boundary mx = Ok false.

(** A piece of length zero that the cull drops. *)
Definition dropped_zero_piece (boundary : list line) (mx : num) (z : line) : Prop :=
  z.1 = z.2 ∧ wf_point z.1 ∧ dropped_by_cull boundary mx z.

(** The piece of length zero at the point [p] is culled. *)
Definition end_is_culled (boundary : list line) (p : point) : Prop :=
  (mx ← max_x boundary; cull_segmented_line [(p, p)] boundary mx) = Ok [].

(** The segment [l] does not meet the boundary segment [b], or meets
    it at one of its own two ends, where the piece of length zero that
    the split leaves is culled. *)
Definition meets_at_own_end (boundary : list line) (l b : line) : Prop :=
  line_intersection l.1 l.2 b.1 b.2 = Ok None
  ∨ (line_intersection l.1 l.2 b.1 b.2 = Ok (Some l.1) ∧ end_is_culled boundary l.1)
  ∨ (line_intersection l.1 l.2 b.1 b.2 = Ok (Some l.2) ∧ end_is_culled boundary l.2).

End Specification.

(** ** The program on Python's floats *)
Module OnFloats.
#[export] Existing Instance float_number.

Definition square_5_15 : list (@line float_number) :=
  [ ([5; -5], [15; -5]); ([15; -5], [15; 15]);
    ([15; 15], [5; 15]); ([5; 15], [5; -5]) ]%float.
End OnFloats.

(** ** Words on floats *)

(** A float that is a number of finite size: a zero or a normal or
    subnormal number. *)
Definition finite_number (x : spec_float) : bool :=
  match x with
  | S754_zero _ | S754_finite _ _ _ => true
  | _ => false
  end.

(** A float that is a zero of either sign. *)
Definition a_zero (x : spec_float) : bool :=
  match x with S754_zero _ => true | _ => false end.

(** A float that is a zero or not a number. *)
Definition zero_or_nan (x : spec_float) : bool :=
  match x with S754_zero _ | S754_nan => true | _ => false end.

(** The same on the floats of the program. *)
Definition is_number (x : float) : Prop := finite_number (Prim2SF x) = true.
Definition is_a_zero (x : float) : Prop := a_zero (Prim2SF x) = true.

(** The end that the first segment starts from is an end of the
    second: its start, or its end when the product of the two
    components of its direction is of finite size. *)
Definition starts_at_an_end (a_from b_from b_to : @point float_number) : Prop :=
  same_coordinates a_from b_from
  ∨ (same_coordinates a_from b_to
     ∧ is_finite ((px b_to - px b_from) * (py b_to - py b_from))%float = true).

(** ** Words for further properties of the code *)

(** What [max_x] needs of the order of the numbers. *)
Class OrderLaws (N : Number) : Prop := {
  nltb_irrefl : ∀ a : num, nltb a a = false;
  nltb_trans : ∀ a b c : num, nltb a b = true → nltb b c = true → nltb a c = true
}.

Section MoreWords.
Context {N : Number}.

(** The pieces lead from [a] to [b], each starting where the one before
    it ends. *)
Fixpoint chain (a : point) (pieces : list line) (b : point) : Prop :=
  match pieces with
  | [] => a = b
  | s :: rest => s.1 = a ∧ chain s.2 rest b
  end.

(** The line commands to the points [ps]. *)
Definition line_to (ps : list (list num)) : list command :=
  (λ p, ("L", p)) <$> ps.

(** The segments between a point and the points that follow it, as the
    segmenter emits them. *)
Fixpoint consecutive (p0 : list num) (ps : list (list num)) : list raw_line :=
  match ps with
  | [] => []
  | p :: rest => (PList p0, PList p) :: consecutive p rest
  end.

(** A subpath that is closed: a move, line commands and a close. *)
Definition closed_subpath (sub : list num * list (list num)) : list command :=
  ("M", sub.1) :: line_to sub.2 ++ [("Z", [])].

Definition closed_segments (sub : list num * list (list num)) : list raw_line :=
  consecutive sub.1 sub.2 ++ [(PList (List.last sub.2 sub.1), PList sub.1)].

(** The commands for which the segmenter appends a segment. *)
Definition emits_segment (cmd : command) : bool :=
  String.eqb cmd.1 "L" || String.eqb cmd.1 "Z" || String.eqb cmd.1 "C".

(** A curve command that lacks one of its six arguments. *)
Definition short_curve (cmd : command) : Prop :=
  cmd.1 = "C" ∧ length cmd.2 < 6.

(** The warning that the segmenter records for a command, if any. *)
Definition warnings_of (cmd : command) : gset string :=
  if String.eqb cmd.1 "M" then ∅
  else if String.eqb cmd.1 "L" then ∅
  else if String.eqb cmd.1 "Z" then ∅
  else if String.eqb cmd.1 "C" then {[curve_warning]}
  else {[invalid_warning cmd.1]}.

(** A segment as the segmenter emits it, from a segment of the
    clipping code. *)
Definition raw (l : line) : raw_line := (PList l.1, PList l.2).

(** The segments that come back when the path built from [segments] is
    read again: a start within tolerance of the end before it is
    replaced by that end. *)
Fixpoint snap (current_end : option point) (segments : list line) : list line :=
  match segments with
  | [] => []
  | s :: rest =>
      (match current_end with
       | Some e => if move_needed current_end s.1 then s.1 else e
       | None => s.1
       end, s.2) :: snap (Some s.2) rest
  end.

(** Every start is within tolerance of the end before it. *)
Fixpoint joined (current_end : point) (segments : list line) : Prop :=
  match segments with
  | [] => True
  | s :: rest => move_needed (Some current_end) s.1 = false ∧ joined s.2 rest
  end.

(** One pass of [clip_line] over the working list, for one boundary
    segment. *)
Definition split_body (segment : line) (lines_write : list line) (l : line)
  : result (list line) :=
  intersect ← line_intersection l.1 l.2 segment.1 segment.2;
  Ok (match intersect with
      | None => lines_write ++ [l]
      | Some i => lines_write ++ [(l.1, i); (i, l.2)]
      end).

(** [z] is not greater than [m]. *)
Definition not_above (z m : num) : Prop := nltb m z = false.

End MoreWords.

(** Case analysis on membership in a list written out. *)
Ltac by_cases_of_membership :=
  repeat match goal with
    | H : _ ∈ _ :: _ |- _ => apply elem_of_cons in H as [-> | H]
    | H : _ ∈ [] |- _ => by apply elem_of_nil in H
    end.

(** * Theorems *)

(** ** The numbers *)

Lemma float_zero_within_tolerance (d : float) :
  PrimFloat.eqb d 0%float = true →
  PrimFloat.leb (PrimFloat.abs (PrimFloat.sub d 0%float)) 0.0001%float = true.
Proof.
  intros H. rewrite FloatAxioms.eqb_spec in H.
  rewrite <- (SF2Prim_Prim2SF d).
  change (Prim2SF 0%float) with (S754_zero false) in H.
  destruct (Prim2SF d) as [s|s| |s m e]; try discriminate H.
  - destruct s; reflexivity.
  - destruct s; discriminate H.
  - destruct s; discriminate H.
Qed.

Lemma float_laws : NumberLaws float_number.
Proof. constructor. exact float_zero_within_tolerance. Qed.
#[global] Existing Instance float_laws.

(** ** Facts on floats *)

Lemma is_finite_spec (x : float) :
  PrimFloat.is_finite x = true → finite_number (Prim2SF x) = true.
Proof.
  unfold is_finite, is_nan, is_infinity.
  rewrite !FloatAxioms.eqb_spec, FloatAxioms.abs_spec.
  change (Prim2SF infinity) with (S754_infinity false).
  destruct (Prim2SF x) as [s|s| |s m e]; try reflexivity.
  - destruct s; intros H; discriminate H.
  - intros H; discriminate H.
Qed.

Lemma SFadd_finite (a b : spec_float) :
  finite_number (SF64add a b) = true →
  finite_number a = true ∧ finite_number b = true.
Proof. destruct a as [[]|[]| |[] ? ?], b as [[]|[]| |[] ? ?]; simpl; auto; discriminate. Qed.

Lemma SFsub_finite (a b : spec_float) :
  finite_number (SF64sub a b) = true →
  finite_number a = true ∧ finite_number b = true.
Proof. destruct a as [[]|[]| |[] ? ?], b as [[]|[]| |[] ? ?]; simpl; auto; discriminate. Qed.

Lemma SFmul_finite (a b : spec_float) :
  finite_number (SF64mul a b) = true →
  finite_number a = true ∧ finite_number b = true.
Proof. destruct a as [[]|[]| |[] ? ?], b as [[]|[]| |[] ? ?]; simpl; auto; discriminate. Qed.

Lemma SFopp_finite (a : spec_float) :
  finite_number (SFopp a) = finite_number a.
Proof. by destruct a. Qed.

Lemma SFsub_self (a : spec_float) :
  finite_number a = true → SF64sub a a = S754_zero false.
Proof.
  destruct a as [[]|[]| |s m e]; try done. intros _.
  unfold SF64sub, SFsub. by rewrite Z.sub_diag.
Qed.

Lemma SFsub_self_zero_or_nan (a : spec_float) : zero_or_nan (SF64sub a a) = true.
Proof.
  destruct a as [[]|[]| |s m e]; try done.
  unfold SF64sub, SFsub. by rewrite Z.sub_diag.
Qed.

Lemma SFmul_zero_l (z a : spec_float) :
  a_zero z = true → finite_number a = true → a_zero (SF64mul z a) = true.
Proof. destruct z as [[]|[]| |[] ? ?], a as [[]|[]| |[] ? ?]; done. Qed.

Lemma SFmul_zero_r (a z : spec_float) :
  a_zero z = true → finite_number a = true → a_zero (SF64mul a z) = true.
Proof. destruct z as [[]|[]| |[] ? ?], a as [[]|[]| |[] ? ?]; done. Qed.

Lemma SFadd_zeros (a b : spec_float) :
  a_zero a = true → a_zero b = true → a_zero (SF64add a b) = true.
Proof. destruct a as [[]|[]| |[] ? ?], b as [[]|[]| |[] ? ?]; done. Qed.

Lemma SFsub_zeros (a b : spec_float) :
  a_zero a = true → a_zero b = true → a_zero (SF64sub a b) = true.
Proof. destruct a as [[]|[]| |[] ? ?], b as [[]|[]| |[] ? ?]; done. Qed.

Lemma SFdiv_zero (z : spec_float) (s : bool) (m : positive) (e : Z) :
  a_zero z = true → a_zero (SF64div z (S754_finite s m e)) = true.
Proof. destruct z as [[]|[]| |[] ? ?], s; done. Qed.

Lemma SFleb_zero (z : spec_float) :
  a_zero z = true →
  SFleb (S754_zero false) z = true ∧ SFleb z (Prim2SF 1%float) = true.
Proof. destruct z as [[]|[]| |[] ? ?]; done. Qed.

Lemma SFeqb_refl (a : spec_float) : finite_number a = true → SFeqb a a = true.
Proof.
  destruct a as [[]|[]| |[] m e]; try done; intros _; unfold SFeqb, SFcompare.
  all: by rewrite Z.compare_refl, Pos.compare_cont_refl.
Qed.

Lemma SFadd_zero_r (a z : spec_float) :
  finite_number a = true → a_zero z = true → SFeqb (SF64add a z) a = true.
Proof.
  destruct z as [sz| | |]; try done. intros Ha _.
  destruct a as [[]|[]| |s m e]; try done; try by destruct sz.
  by apply (SFeqb_refl (S754_finite s m e)).
Qed.

Lemma SFmul_comm (a b : spec_float) : SF64mul a b = SF64mul b a.
Proof.
  destruct a as [sa|sa| |sa ma ea], b as [sb|sb| |sb mb eb]; simpl;
    rewrite ?(xorb_comm sa sb); try reflexivity.
  by rewrite (Pos.mul_comm ma mb), (Z.add_comm ea eb).
Qed.

Lemma SFmul_opp_swap (a b : spec_float) :
  SF64mul (SFopp a) b = SF64mul (SFopp b) a.
Proof.
  destruct a as [sa|sa| |sa ma ea], b as [sb|sb| |sb mb eb]; simpl;
    try reflexivity.
  all: try (by destruct sa, sb).
  rewrite (Pos.mul_comm ma mb), (Z.add_comm ea eb).
  by destruct sa, sb.
Qed.

Lemma SFdiv_self (s : bool) (m : positive) (e : Z) :
  SF64div (S754_finite s m e) (S754_finite s m e) = Prim2SF 1%float.
Proof.
  unfold SF64div, SFdiv, SFdiv_core_binary.
  rewrite Z.sub_diag. rewrite Z.sub_diag.
  change (Z.min (fexp prec emax 0) 0) with (-53)%Z.
  change (0 - -53)%Z with 53%Z. cbv iota beta.
  assert (H : Z.div_eucl (Z.shiftl (Z.pos m) 53) (Z.pos m) = (2 ^ 53, 0)%Z).
  { rewrite Z.shiftl_mul_pow2 by lia.
    pose proof (Z.div_eucl_eq (Z.pos m * 2 ^ 53) (Z.pos m)) as Heq.
    pose proof (Z.mod_pos_bound (Z.pos m * 2 ^ 53) (Z.pos m)) as Hb.
    unfold Z.modulo in Hb.
    destruct (Z.div_eucl (Z.pos m * 2 ^ 53) (Z.pos m)) as [q r].
    specialize (Heq ltac:(lia)). specialize (Hb ltac:(lia)).
    assert (q = 2 ^ 53)%Z by nia. subst q. f_equal. lia. }
  rewrite H. unfold new_location.
  destruct (Z.even (Z.pos m)); unfold new_location_even, new_location_odd;
    simpl Z.eqb; cbv iota.
  all: rewrite xorb_nilpotent; vm_compute; reflexivity.
Qed.

Lemma SFmul_zero_or_nan_l (z a : spec_float) :
  zero_or_nan z = true → zero_or_nan (SF64mul z a) = true.
Proof. destruct z as [[]|[]| |[] ? ?], a as [[]|[]| |[] ? ?]; done. Qed.

Lemma SFmul_zero_or_nan_r (a z : spec_float) :
  zero_or_nan z = true → zero_or_nan (SF64mul a z) = true.
Proof. destruct z as [[]|[]| |[] ? ?], a as [[]|[]| |[] ? ?]; done. Qed.

Lemma SFadd_zero_or_nan (a b : spec_float) :
  zero_or_nan a = true → zero_or_nan b = true → zero_or_nan (SF64add a b) = true.
Proof. destruct a as [[]|[]| |[] ? ?], b as [[]|[]| |[] ? ?]; done. Qed.

(** The same on the floats of the program. *)

Lemma float_add_finite (a b : float) :
  is_number (a + b) → is_number a ∧ is_number b.
Proof. unfold is_number. rewrite FloatAxioms.add_spec. apply SFadd_finite. Qed.

Lemma float_sub_finite (a b : float) :
  is_number (a - b) → is_number a ∧ is_number b.
Proof. unfold is_number. rewrite FloatAxioms.sub_spec. apply SFsub_finite. Qed.

Lemma float_mul_finite (a b : float) :
  is_number (a * b) → is_number a ∧ is_number b.
Proof. unfold is_number. rewrite FloatAxioms.mul_spec. apply SFmul_finite. Qed.

Lemma float_opp_finite (a : float) : is_number (- a) ↔ is_number a.
Proof. unfold is_number. by rewrite FloatAxioms.opp_spec, SFopp_finite. Qed.

Lemma float_sub_self (a : float) : is_number a → is_a_zero (a - a).
Proof.
  unfold is_number, is_a_zero. rewrite FloatAxioms.sub_spec.
  intros H. by rewrite SFsub_self.
Qed.

Lemma float_mul_zero_l (z a : float) :
  is_a_zero z → is_number a → is_a_zero (z * a).
Proof. unfold is_number, is_a_zero. rewrite FloatAxioms.mul_spec. apply SFmul_zero_l. Qed.

Lemma float_mul_zero_r (a z : float) :
  is_a_zero z → is_number a → is_a_zero (a * z).
Proof. unfold is_number, is_a_zero. rewrite FloatAxioms.mul_spec. apply SFmul_zero_r. Qed.

Lemma float_add_zeros (a b : float) :
  is_a_zero a → is_a_zero b → is_a_zero (a + b).
Proof. unfold is_a_zero. rewrite FloatAxioms.add_spec. apply SFadd_zeros. Qed.

Lemma float_sub_zeros (a b : float) :
  is_a_zero a → is_a_zero b → is_a_zero (a - b).
Proof. unfold is_a_zero. rewrite FloatAxioms.sub_spec. apply SFsub_zeros. Qed.

Lemma float_zero_in_unit_interval (z : float) :
  is_a_zero z → (0 <=? z)%float = true ∧ (z <=? 1)%float = true.
Proof.
  unfold is_a_zero. rewrite !FloatAxioms.leb_spec. apply SFleb_zero.
Qed.

Lemma float_add_zero_r (a z : float) :
  is_number a → is_a_zero z → (a + z =? a)%float = true.
Proof.
  unfold is_number, is_a_zero. rewrite FloatAxioms.eqb_spec, FloatAxioms.add_spec.
  apply SFadd_zero_r.
Qed.

Lemma float_mul_comm (a b : float) : (a * b = b * a)%float.
Proof.
  apply Prim2SF_inj. rewrite !FloatAxioms.mul_spec. apply SFmul_comm.
Qed.

Lemma float_mul_opp_swap (a b : float) : (- a * b = - b * a)%float.
Proof.
  apply Prim2SF_inj. rewrite !FloatAxioms.mul_spec, !FloatAxioms.opp_spec.
  apply SFmul_opp_swap.
Qed.

(** A float of finite size that is not within tolerance of [0.0] is a
    normal or subnormal number, not a zero. *)
Lemma float_outside_tolerance (d : float) :
  is_number d → (abs (d - 0) <=? 0.0001)%float = false →
  ∃ s m e, Prim2SF d = S754_finite s m e.
Proof.
  unfold is_number. intros Hfin Htol.
  destruct (Prim2SF d) as [s|s| |s m e] eqn:Hd; try done; [|by eauto].
  rewrite <- (SF2Prim_Prim2SF d), Hd in Htol. by destruct s.
Qed.

Lemma float_div_self (d : float) (s : bool) (m : positive) (e : Z) :
  Prim2SF d = S754_finite s m e → (d / d = 1)%float.
Proof.
  intros Hd. apply Prim2SF_inj. rewrite FloatAxioms.div_spec, Hd. apply SFdiv_self.
Qed.

Lemma float_div_zero (z d : float) (s : bool) (m : positive) (e : Z) :
  is_a_zero z → Prim2SF d = S754_finite s m e → is_a_zero (z / d).
Proof.
  unfold is_a_zero. intros Hz Hd. rewrite FloatAxioms.div_spec, Hd. by apply SFdiv_zero.
Qed.

Lemma float_is_finite (x : float) : is_finite x = true → is_number x.
Proof. apply is_finite_spec. Qed.

(** ** Loops and subscripts *)

Section Basics.
Context {N : Number}.

Lemma index_wf (p : point) :
  wf_point p → index p 0 = Ok (px p) ∧ index p 1 = Ok (py p).
Proof.
  unfold wf_point, index, px, py.
  destruct p as [|x [|y p]]; simpl; intros; [lia | lia | done].
Qed.

Lemma index_0_wf (p : point) : wf_point p → index p 0 = Ok (px p).
Proof. intros H. apply index_wf, H. Qed.

Lemma index_1_wf (p : point) : wf_point p → index p 1 = Ok (py p).
Proof. intros H. apply index_wf, H. Qed.

Lemma direction_wf (p_to p_from : point) :
  wf_point p_to → wf_point p_from →
  direction p_to p_from
  = Ok (nsub (px p_to) (px p_from), nsub (py p_to) (py p_from)).
Proof.
  intros Ht Hf. unfold direction.
  rewrite !index_0_wf, !index_1_wf by done. reflexivity.
Qed.

Lemma for_each_cons {S A : Type} (x : A) (xs : list A) (body : S → A → result S) (s : S) :
  for_each (x :: xs) body s = (s' ← body s x; for_each xs body s').
Proof. reflexivity. Qed.

Lemma for_each_app {S A : Type} (xs ys : list A) (body : S → A → result S) (s : S) :
  for_each (xs ++ ys) body s = (s' ← for_each xs body s; for_each ys body s').
Proof.
  revert s. induction xs as [|x xs IH]; intros s; simpl; [done|].
  destruct (body s x); simpl; [apply IH | done].
Qed.

End Basics.

(** ** [line_intersection] *)

Section Intersection.
Context {N : Number} {L : NumberLaws N}.

Lemma py_div_nonzero (a d : num) :
  approx_equal d zero = false → py_div a d = Ok (ndiv a d).
Proof.
  intros Hd. unfold py_div. destruct (is_zero d) eqn:Hz; [|done].
  apply zero_within_tolerance in Hz. unfold approx_equal in Hd. congruence.
Qed.

(** On points that have their two coordinates, the code computes
    [intersect]: no exception escapes, the division included. *)
Lemma line_intersection_wf (a_from a_to b_from b_to : point) :
  wf_point a_from → wf_point a_to → wf_point b_from → wf_point b_to →
  line_intersection a_from a_to b_from b_to
  = Ok (intersect a_from a_to b_from b_to).
Proof.
  intros Haf Hat Hbf Hbt. unfold line_intersection, intersect.
  rewrite !direction_wf by done. cbn -[approx_equal].
  fold (cross_denominator a_from a_to b_from b_to).
  destruct (approx_equal (cross_denominator a_from a_to b_from b_to) zero) eqn:HD;
    cbn -[approx_equal]; [done|].
  rewrite !index_0_wf, !index_1_wf by done. cbn -[approx_equal].
  rewrite !py_div_nonzero by done. cbn -[approx_equal].
  fold (param_s a_from a_to b_from b_to) (param_t a_from a_to b_from b_to).
  unfold in_unit_interval, point_along.
  rewrite !andb_assoc.
  destruct (_ && _ && _ && _); reflexivity.
Qed.

(** C2. [line_intersection] returns [None] when the cross-product
    denominator of the two direction vectors is within tolerance of
    zero; otherwise it returns a point exactly when both parameters
    [s] and [t] lie in the closed interval from 0 to 1, and that
    point is [segA.from + t·(segA.to − segA.from)]; in every other
    case it returns [None]. *)
Theorem line_intersection_cases (a_from a_to b_from b_to : point) :
  wf_point a_from → wf_point a_to → wf_point b_from → wf_point b_to →
  let D := cross_denominator a_from a_to b_from b_to in
  let s := param_s a_from a_to b_from b_to in
  let t := param_t a_from a_to b_from b_to in
  let returned := line_intersection a_from a_to b_from b_to in
  (approx_equal D zero = true → returned = Ok None)
  ∧ (approx_equal D zero = false →
     ((∃ p, returned = Ok (Some p))
      ↔ in_unit_interval s = true ∧ in_unit_interval t = true)
     ∧ (∀ p, returned = Ok (Some p) → p = point_along a_from a_to t)
     ∧ (in_unit_interval s && in_unit_interval t = false → returned = Ok None)).
Proof.
  intros Haf Hat Hbf Hbt D s t returned. subst returned.
  rewrite line_intersection_wf by done. unfold intersect. fold D s t.
  split; [intros ->; done|]. intros ->.
  destruct (in_unit_interval s), (in_unit_interval t); cbn.
  all: split; [split|split].
  all: try (intros [p Hp]; by inversion Hp).
  all: try (intros [Hs Ht]; (discriminate Hs || discriminate Ht || by eexists)).
  all: try (intros p Hp; by inversion Hp).
  all: done.
Qed.

(** A point missing a coordinate makes the subscripts of the [try]
    block raise [IndexError], which the handler turns into the curve
    message and [sys.exit()]. *)
Lemma line_intersection_malformed (l1_from l1_to l2_from l2_to : point) :
  length l1_from < 2 ∨ length l1_to < 2 ∨ length l2_from < 2 ∨ length l2_to < 2 →
  line_intersection l1_from l1_to l2_from l2_to = Raise (SystemExit curve_error).
Proof.
  intros H. unfold line_intersection, direction, index.
  destruct l1_to as [|? [|? ?]], l1_from as [|? [|? ?]]; cbn; try done;
    destruct l2_to as [|? [|? ?]], l2_from as [|? [|? ?]]; cbn; try done;
    cbn in H; lia.
Qed.

End Intersection.

(** ** Segments that share an end *)

Section SharedEndpoint.
Import OnFloats.
Local Open Scope float_scope.

(** The parameters and the point when the first segment starts where
    the second starts. *)
Lemma start_at_start (x1 y1 dAx dAy dBx dBy : float) :
  let D := - dBx * dAy + dAx * dBy in
  let s := (- dAy * (x1 - x1) + dAx * (y1 - y1)) / D in
  let t := (dBx * (y1 - y1) - dBy * (x1 - x1)) / D in
  is_number x1 → is_number y1 →
  is_number D → (abs (D - 0) <=? 0.0001) = false →
  (0 <=? s) && (s <=? 1) = true ∧ (0 <=? t) && (t <=? 1) = true
  ∧ (x1 + t * dAx =? x1) = true ∧ (y1 + t * dAy =? y1) = true.
Proof.
  intros D s t Hx Hy HD Htol.
  destruct (float_outside_tolerance D HD Htol) as (sd & md & ed & HDf).
  apply float_add_finite in HD as [[HdBx HdAy]%float_mul_finite
                                   [HdAx HdBy]%float_mul_finite].
  apply (proj1 (float_opp_finite dBx)) in HdBx.
  pose proof (float_sub_self x1 Hx) as Hzx.
  pose proof (float_sub_self y1 Hy) as Hzy.
  assert (Hs : is_a_zero s).
  { apply (float_div_zero _ _ sd md ed); [|done].
    apply float_add_zeros; apply float_mul_zero_r; try done.
    by apply float_opp_finite. }
  assert (Ht : is_a_zero t).
  { apply (float_div_zero _ _ sd md ed); [|done].
    apply float_sub_zeros; by apply float_mul_zero_r. }
  destruct (float_zero_in_unit_interval s Hs) as [-> ->].
  destruct (float_zero_in_unit_interval t Ht) as [-> ->].
  repeat split; apply float_add_zero_r; try done; by apply float_mul_zero_l.
Qed.

(** The same when the first segment starts where the second ends. *)
Lemma start_at_end (x1 y1 x2 y2 dAx dAy : float) :
  let dBx := x1 - x2 in
  let dBy := y1 - y2 in
  let D := - dBx * dAy + dAx * dBy in
  let s := (- dAy * (x1 - x2) + dAx * (y1 - y2)) / D in
  let t := (dBx * (y1 - y2) - dBy * (x1 - x2)) / D in
  is_number (dBx * dBy) →
  is_number D → (abs (D - 0) <=? 0.0001) = false →
  (0 <=? s) && (s <=? 1) = true ∧ (0 <=? t) && (t <=? 1) = true
  ∧ (x1 + t * dAx =? x1) = true ∧ (y1 + t * dAy =? y1) = true.
Proof.
  intros dBx dBy D s t Hprod HD Htol.
  destruct (float_outside_tolerance D HD Htol) as (sd & md & ed & HDf).
  assert (Hs : s = 1).
  { unfold s. fold dBx dBy. rewrite (float_mul_opp_swap dAy dBx). fold D.
    by apply (float_div_self D sd md ed). }
  assert (Ht : is_a_zero t).
  { apply (float_div_zero _ _ sd md ed); [|done].
    fold dBx dBy. rewrite (float_mul_comm dBy dBx). by apply float_sub_self. }
  apply float_add_finite in HD as [[HdBx HdAy]%float_mul_finite
                                   [HdAx HdBy]%float_mul_finite].
  apply (proj1 (float_opp_finite dBx)) in HdBx.
  apply float_sub_finite in HdBx as [Hx _].
  apply float_sub_finite in HdBy as [Hy _].
  rewrite Hs.
  destruct (float_zero_in_unit_interval t Ht) as [-> ->].
  repeat split; apply float_add_zero_r; try done; by apply float_mul_zero_l.
Qed.

(** C3, as the code has it, on Python's floats. Two segments whose
    cross-product denominator is within tolerance of zero have no
    intersection, also when they share an end. When the first segment
    starts at an end of the second and the denominator is a float of
    finite size outside the tolerance, [line_intersection] returns a
    point whose coordinates are equal ([==]) to those of the shared
    end; when that end is the end of the second segment, the product
    of the two components of its direction must be of finite size as
    well. *)
Theorem shared_start_returned (a_from a_to b_from b_to : point) :
  wf_point a_from → wf_point a_to → wf_point b_from → wf_point b_to →
  let D := cross_denominator a_from a_to b_from b_to in
  (approx_equal D zero = true →
   line_intersection a_from a_to b_from b_to = Ok None)
  ∧ (approx_equal D zero = false → is_finite D = true →
     starts_at_an_end a_from b_from b_to →
     ∃ x y, line_intersection a_from a_to b_from b_to = Ok (Some [x; y])
            ∧ (x =? px a_from) = true ∧ (y =? py a_from) = true).
Proof.
  intros Haf Hat Hbf Hbt D.
  rewrite line_intersection_wf by done. unfold intersect. fold D.
  split; [by intros ->|]. intros Htol HD%float_is_finite Hshared. rewrite Htol.
  unfold param_s, param_t, point_along, in_unit_interval. fold D.
  assert (Hparts :
    let s := ((- (py a_to - py a_from) * (px a_from - px b_from)
               + (px a_to - px a_from) * (py a_from - py b_from)) / D) in
    let t := (((px b_to - px b_from) * (py a_from - py b_from)
               - (py b_to - py b_from) * (px a_from - px b_from)) / D) in
    (0 <=? s) && (s <=? 1) = true ∧ (0 <=? t) && (t <=? 1) = true
    ∧ (px a_from + t * (px a_to - px a_from) =? px a_from) = true
    ∧ (py a_from + t * (py a_to - py a_from) =? py a_from) = true).
  { destruct Hshared as [[Hx Hy] | [[Hx Hy] Hprod%float_is_finite]].
    - rewrite <- Hx, <- Hy. unfold D, cross_denominator in *.
      rewrite <- Hx, <- Hy in *.
      pose proof HD as HD'.
      apply float_add_finite in HD' as [_ [HdAx HdBy]%float_mul_finite].
      apply float_sub_finite in HdAx as [_ Hx1].
      apply float_sub_finite in HdBy as [_ Hy1].
      by apply start_at_start.
    - unfold D, cross_denominator in *. rewrite <- Hx, <- Hy in *.
      by apply start_at_end. }
  cbn zeta in Hparts. destruct Hparts as (Hs & Ht & Hpx & Hpy).
  change (nleb zero ?a) with (0 <=? a). change (nleb ?a one) with (a <=? 1).
  change ndiv with PrimFloat.div. change nadd with PrimFloat.add.
  change nsub with PrimFloat.sub. change nmul with PrimFloat.mul.
  change nopp with PrimFloat.opp.
  rewrite Hs, Ht. cbn [andb]. eauto.
Qed.

End SharedEndpoint.

(** ** Containment and clipping *)

Section Clipping.
Context {N : Number} {L : NumberLaws N}.

Lemma wf_ray_end (p : point) (mx : num) : wf_point (ray_end p mx).
Proof. unfold wf_point, ray_end. simpl. lia. Qed.

Lemma mid_point_wf (l : line) :
  wf_line l → ∃ m, mid_point l = Ok m ∧ wf_point m.
Proof.
  intros [H1 H2]. unfold mid_point.
  rewrite !index_0_wf, !index_1_wf by done. cbn.
  eexists; split; [reflexivity|]. unfold wf_point. simpl. lia.
Qed.

Lemma odd_mod_2 (n : nat) : Nat.eqb (n mod 2) 1 = Nat.odd n.
Proof. rewrite <- Nat.bit0_eqb. apply Nat.bit0_odd. Qed.

(** The counting loop of [inside_region], from any count so far. *)
Lemma count_crossings (p : point) (mx : num) (segments : list line) (seen : nat) :
  wf_point p → Forall wf_line segments →
  for_each segments
    (λ (crossings : nat) l,
       i ← line_intersection l.1 l.2 p (ray_end p mx);
       Ok (match i with Some _ => crossings + 1 | None => crossings end))
    seen
  = Ok (seen + length (List.filter (crossed_by_ray p mx) segments)).
Proof.
  intros Hp Hsegs. revert seen.
  induction Hsegs as [|l segments [Hl1 Hl2] _ IH]; intros seen; simpl.
  - f_equal. lia.
  - unfold crossed_by_ray at 1.
    rewrite line_intersection_wf by auto using wf_ray_end. cbn.
    destruct (intersect _ _ _ _); rewrite IH; simpl; f_equal; lia.
Qed.

(** C5. [inside_region] casts the horizontal ray from the point to
    [(2·boundaryMaxX, point.y)], counts the boundary segments for
    which [line_intersection] with that ray returns a point, and
    returns true exactly when the count is odd. *)
Theorem inside_region_parity (p : point) (boundary : list line) (boundary_max_x : num) :
  wf_point p → Forall wf_line boundary →
  inside_region p boundary boundary_max_x
  = Ok (Nat.odd (length (List.filter (crossed_by_ray p boundary_max_x) boundary))).
Proof.
  intros Hp Hb. unfold inside_region.
  rewrite index_1_wf by done. cbn -[Nat.modulo].
  fold (ray_end p boundary_max_x).
  rewrite (count_crossings p boundary_max_x boundary 0 Hp Hb).
  cbn -[Nat.modulo Nat.odd]. by rewrite odd_mod_2.
Qed.



(** *** An empty boundary *)

Lemma clip_line_nil (l : line) : clip_line l [] = Ok [l].
Proof. reflexivity. Qed.

Lemma max_x_nil : max_x [] = Ok zero.
Proof. reflexivity. Qed.

Lemma inside_region_nil (p : point) (mx : num) :
  wf_point p → inside_region p [] mx = Ok false.
Proof.
  intros Hp. unfold inside_region. rewrite index_1_wf by done. reflexivity.
Qed.

Lemma clip_empty_boundary_from (subject clipped : list line) :
  Forall wf_line subject →
  for_each subject
    (λ clipped_lines line_to_clip,
       split ← clip_line line_to_clip [];
       mx ← max_x [];
       culled ← cull_segmented_line split [] mx;
       Ok (clipped_lines ++ culled))
    clipped
  = Ok clipped.
Proof.
  intros Hs. revert clipped.
  induction Hs as [|l subject Hl _ IH]; intros clipped; simpl; [done|].
  unfold cull_segmented_line. simpl.
  destruct (mid_point_wf l Hl) as (m & -> & Hm). cbn.
  rewrite inside_region_nil by done. cbn.
  rewrite app_nil_r. apply IH.
Qed.

(** C10. Clipping against an empty boundary returns the empty
    segment set: [max_x] defaults to [0.0], every containment test counts
    no crossing and reports outside, so every sub-segment of every
    subject segment is culled. *)
Theorem clip_empty_boundary (subject : list line) :
  Forall wf_line subject →
  clip_line_segments subject [] = Ok []
  ∧ max_x [] = Ok zero
  ∧ ∀ l, l ∈ subject →
      clip_line l [] = Ok [l] ∧ cull_segmented_line [l] [] zero = Ok [].
Proof.
  intros Hs. split; [by apply clip_empty_boundary_from|].
  split; [done|]. intros l Hl. split; [done|].
  rewrite Forall_forall in Hs. specialize (Hs l Hl).
  unfold cull_segmented_line. simpl.
  destruct (mid_point_wf l Hs) as (m & -> & Hm). cbn.
  by rewrite inside_region_nil.
Qed.

End Clipping.

(** ** Clipping twice *)

Section ClipTwice.
Context {N : Number}.

Lemma cull_body_eq (boundary : list line) (mx : num) (culled : list line) (segment : line) :
  cull_body boundary mx culled segment
  = (m ← mid_point segment;
     inside ← inside_region m boundary mx;
     Ok (if inside : bool then culled ++ [segment] else culled)).
Proof. reflexivity. Qed.

Lemma clip_body_eq (boundary clipped_lines : list line) (line_to_clip : line) :
  clip_body boundary clipped_lines line_to_clip
  = (split ← clip_line line_to_clip boundary;
     mx ← max_x boundary;
     culled ← cull_segmented_line split boundary mx;
     Ok (clipped_lines ++ culled)).
Proof. reflexivity. Qed.

Lemma cull_segmented_line_loop (segmented_line boundary : list line) (mx : num) :
  cull_segmented_line segmented_line boundary mx
  = for_each segmented_line (cull_body boundary mx) [].
Proof. reflexivity. Qed.

Lemma clip_line_segments_loop (subject boundary : list line) :
  clip_line_segments subject boundary = for_each subject (clip_body boundary) [].
Proof. reflexivity. Qed.

Lemma cull_keeps_inside (boundary : list line) (mx : num)
    (segmented_line culled kept : list line) :
  for_each segmented_line (cull_body boundary mx) culled = Ok kept →
  Forall (kept_by_cull boundary mx) culled →
  Forall (kept_by_cull boundary mx) kept.
Proof.
  revert culled. induction segmented_line as [|l ls IH]; intros culled; simpl.
  - by intros [= <-].
  - rewrite cull_body_eq.
    destruct (mid_point l) as [m|] eqn:Hm; cbn; [|done].
    destruct (inside_region m boundary mx) as [[]|] eqn:Hin; cbn; [| |done].
    + intros Hrest Hc. apply (IH _ Hrest).
      apply Forall_app. split; [done|]. apply Forall_singleton. by exists m.
    + intros Hrest Hc. by apply (IH _ Hrest).
Qed.

Lemma cull_keeps (boundary : list line) (mx : num) (segmented_line kept : list line) :
  cull_segmented_line segmented_line boundary mx = Ok kept →
  Forall (kept_by_cull boundary mx) kept.
Proof.
  rewrite cull_segmented_line_loop. intros H.
  by apply (cull_keeps_inside _ _ _ [] _ H).
Qed.

(** Every segment of a clip result was kept by a cull against the
    boundary and its [max_x]. *)
Lemma clip_keeps_inside (boundary subject clipped kept : list line) (mx : num) :
  max_x boundary = Ok mx →
  for_each subject (clip_body boundary) clipped = Ok kept →
  Forall (kept_by_cull boundary mx) clipped →
  Forall (kept_by_cull boundary mx) kept.
Proof.
  intros Hmx. revert clipped.
  induction subject as [|l ls IH]; intros clipped; simpl.
  - by intros [= <-].
  - rewrite clip_body_eq.
    destruct (clip_line l boundary) as [split|]; cbn; [|done].
    rewrite Hmx. cbn.
    destruct (cull_segmented_line split boundary mx) as [culled|] eqn:Hc;
      cbn; [|done].
    intros Hrest Hclipped. apply (IH _ Hrest).
    apply Forall_app. split; [done|]. by apply cull_keeps in Hc.
Qed.

Lemma split_body_eq (segment : line) (lines_write : list line) (l : line) :
  split_body segment lines_write l
  = (intersect ← line_intersection l.1 l.2 segment.1 segment.2;
     Ok (match intersect with
         | None => lines_write ++ [l]
         | Some i => lines_write ++ [(l.1, i); (i, l.2)]
         end)).
Proof. reflexivity. Qed.

Lemma clip_line_loop (l : line) (boundary : list line) :
  clip_line l boundary
  = for_each boundary (λ lines segment, for_each lines (split_body segment) []) [l].
Proof. reflexivity. Qed.

Lemma line_intersection_returns_wf (l1_from l1_to l2_from l2_to : point) r :
  line_intersection l1_from l1_to l2_from l2_to = Ok r →
  wf_point l1_from ∧ wf_point l1_to ∧ wf_point l2_from ∧ wf_point l2_to.
Proof.
  intros H. unfold wf_point.
  destruct (decide (2 ≤ length l1_from ∧ 2 ≤ length l1_to
                    ∧ 2 ≤ length l2_from ∧ 2 ≤ length l2_to)) as [|Hn]; [done|].
  rewrite line_intersection_malformed in H; [done|lia].
Qed.

Lemma end_is_culled_dropped (boundary : list line) (mx : num) (p : point) :
  max_x boundary = Ok mx → end_is_culled boundary p →
  dropped_by_cull boundary mx (p, p).
Proof.
  unfold end_is_culled, dropped_by_cull. intros ->. cbn -[cull_segmented_line].
  rewrite cull_segmented_line_loop, for_each_cons, cull_body_eq.
  destruct (mid_point (p, p)) as [m|] eqn:Hm; cbn; [|done].
  destruct (inside_region m boundary mx) as [[]|] eqn:Hin; cbn; try done.
  intros _. by exists m.
Qed.

Lemma cull_drops (boundary : list line) (mx : num) (zs acc : list line) :
  Forall (dropped_zero_piece boundary mx) zs →
  for_each zs (cull_body boundary mx) acc = Ok acc.
Proof.
  induction 1 as [|z zs (_ & _ & m & Hm & Hout) _ IH]; [done|].
  rewrite for_each_cons, cull_body_eq, Hm. cbn. rewrite Hout. cbn. apply IH.
Qed.

Lemma cull_own_ends (boundary : list line) (mx : num) (l : line) (pre post : list line) :
  kept_by_cull boundary mx l →
  Forall (dropped_zero_piece boundary mx) pre →
  Forall (dropped_zero_piece boundary mx) post →
  cull_segmented_line (pre ++ l :: post) boundary mx = Ok [l].
Proof.
  intros (m & Hm & Hin) Hpre Hpost.
  rewrite cull_segmented_line_loop, for_each_app, cull_drops by done.
  cbn [mbind result_bind]. rewrite for_each_cons, cull_body_eq, Hm. cbn.
  rewrite Hin. cbn. by apply cull_drops.
Qed.

(** Clipping again returns the segments of which the pieces that the
    cull keeps are the segment itself. *)
Lemma clip_fixed_from (boundary segments clipped : list line) (mx : num) :
  max_x boundary = Ok mx →
  Forall (λ l, ∃ pieces, clip_line l boundary = Ok pieces
                         ∧ cull_segmented_line pieces boundary mx = Ok [l])
         segments →
  for_each segments (clip_body boundary) clipped = Ok (clipped ++ segments).
Proof.
  intros Hmx Hfixed. revert clipped.
  induction Hfixed as [|l ls (pieces & Hsplit & Hcull) _ IH]; intros clipped.
  - by rewrite app_nil_r.
  - rewrite for_each_cons, clip_body_eq, Hsplit. cbn -[cull_segmented_line].
    rewrite Hmx. cbn -[cull_segmented_line]. rewrite Hcull. cbn.
    rewrite IH. by rewrite <- app_assoc.
Qed.

End ClipTwice.

Section ClipTwiceOnFloats.
Import OnFloats.
Local Open Scope float_scope.

(** A segment of length zero meets no segment: the components of its
    direction are [0.0] or not a number, and so is the denominator. *)
Lemma zero_length_meets_nothing (p b_from b_to : point) :
  wf_point p → wf_point b_from → wf_point b_to →
  line_intersection p p b_from b_to = Ok None.
Proof.
  intros Hp Hbf Hbt. rewrite line_intersection_wf by done.
  unfold intersect, param_s, in_unit_interval.
  set (D := cross_denominator p p b_from b_to).
  assert (HD : zero_or_nan (Prim2SF D) = true).
  { unfold D, cross_denominator.
    change (zero_or_nan (Prim2SF (- (px b_to - px b_from) * (py p - py p)
                                  + (px p - px p) * (py b_to - py b_from))) = true).
    rewrite FloatAxioms.add_spec, !FloatAxioms.mul_spec.
    apply SFadd_zero_or_nan.
    - apply SFmul_zero_or_nan_r. rewrite FloatAxioms.sub_spec.
      apply SFsub_self_zero_or_nan.
    - apply SFmul_zero_or_nan_l. rewrite FloatAxioms.sub_spec.
      apply SFsub_self_zero_or_nan. }
  destruct (Prim2SF D) as [s| | |] eqn:HDs; try done.
  - assert (Htol : approx_equal D zero = true).
    { change ((abs (D - 0) <=? 0.0001) = true).
      rewrite <- (SF2Prim_Prim2SF D), HDs. by destruct s. }
    by rewrite Htol.
  - destruct (approx_equal D zero); [done|].
    match goal with |- context [nleb zero (ndiv ?n D)] =>
      assert (Hs : nleb zero (ndiv n D) = false) end.
    { match goal with |- nleb zero (ndiv ?n D) = false =>
        change ((0 <=? n / D) = false) end.
      rewrite FloatAxioms.leb_spec, FloatAxioms.div_spec, HDs.
      match goal with |- context [SF64div ?n _] => by destruct n as [[]|[]| |[] ? ?] end. }
    by rewrite Hs.
Qed.

Lemma zero_pieces_pass (boundary : list line) (mx : float) (b : line)
    (zs acc : list line) :
  wf_line b → Forall (dropped_zero_piece boundary mx) zs →
  for_each zs (split_body b) acc = Ok (acc ++ zs).
Proof.
  intros [Hb1 Hb2] Hzs. revert acc.
  induction Hzs as [|[p q] zs (Hpq & Hp & _) _ IH]; intros acc.
  - by rewrite app_nil_r.
  - simpl in Hpq, Hp. subst q.
    rewrite for_each_cons, split_body_eq. cbn [fst snd].
    rewrite zero_length_meets_nothing by done. cbn [mbind result_bind].
    rewrite IH. by rewrite <- app_assoc.
Qed.

(** One pass of [clip_line] over a working list that is the segment
    between pieces of length zero. *)
Lemma pass_own_end (boundary : list line) (mx : float) (b l : line)
    (pre post : list line) :
  max_x boundary = Ok mx →
  meets_at_own_end boundary l b →
  Forall (dropped_zero_piece boundary mx) pre →
  Forall (dropped_zero_piece boundary mx) post →
  ∃ pre' post',
    for_each (pre ++ l :: post) (split_body b) [] = Ok (pre' ++ l :: post')
    ∧ Forall (dropped_zero_piece boundary mx) pre'
    ∧ Forall (dropped_zero_piece boundary mx) post'.
Proof.
  intros Hmx Hmeet Hpre Hpost.
  assert (Hwf : wf_point l.1 ∧ wf_point l.2 ∧ wf_point b.1 ∧ wf_point b.2).
  { destruct Hmeet as [H | [[H _] | [H _]]];
      by apply line_intersection_returns_wf in H. }
  destruct Hwf as (Hl1 & Hl2 & Hb1 & Hb2).
  assert (Hb : wf_line b) by done.
  rewrite for_each_app, (zero_pieces_pass boundary mx) by done.
  cbn [mbind result_bind app]. rewrite for_each_cons, split_body_eq.
  unfold meets_at_own_end in Hmeet. destruct l as [l1 l2]. cbn [fst snd] in *.
  destruct Hmeet as [-> | [[-> Hcull] | [-> Hcull]]]; cbn [mbind result_bind].
  - exists pre, post. rewrite (zero_pieces_pass boundary mx) by done.
    by rewrite <- app_assoc.
  - exists (pre ++ [(l1, l1)]), post.
    rewrite (zero_pieces_pass boundary mx) by done.
    rewrite <- !app_assoc. split; [done|]. split; [|done].
    apply Forall_app. split; [done|]. apply Forall_singleton.
    split; [done|]. split; [done|]. by apply end_is_culled_dropped.
  - exists pre, ((l2, l2) :: post).
    rewrite (zero_pieces_pass boundary mx) by done.
    rewrite <- !app_assoc. split; [done|]. split; [done|].
    apply Forall_cons. split; [|done].
    split; [done|]. split; [done|]. by apply end_is_culled_dropped.
Qed.

Lemma clip_line_own_ends (boundary bs : list line) (mx : float) (l : line)
    (pre post : list line) :
  max_x boundary = Ok mx →
  Forall (meets_at_own_end boundary l) bs →
  Forall (dropped_zero_piece boundary mx) pre →
  Forall (dropped_zero_piece boundary mx) post →
  ∃ pre' post',
    for_each bs (λ lines segment, for_each lines (split_body segment) [])
      (pre ++ l :: post)
    = Ok (pre' ++ l :: post')
    ∧ Forall (dropped_zero_piece boundary mx) pre'
    ∧ Forall (dropped_zero_piece boundary mx) post'.
Proof.
  intros Hmx Hbs. revert pre post.
  induction Hbs as [|b bs Hb _ IH]; intros pre post Hpre Hpost.
  - by exists pre, post.
  - rewrite for_each_cons.
    destruct (pass_own_end boundary mx b l pre post Hmx Hb Hpre Hpost)
      as (pre' & post' & -> & Hpre' & Hpost').
    cbn [mbind result_bind]. by apply IH.
Qed.

(** C8, as the code has it. Clipping the result of a clip against the
    same boundary returns it unchanged whenever every segment of the
    result meets the boundary segments at its own ends only, and each
    such end is culled as a piece of length zero: the second clip
    splits the segment at that end again and drops the piece of length
    zero. *)
Theorem clip_twice_own_ends (subject boundary clipped : list line) :
  clip_line_segments subject boundary = Ok clipped →
  (∀ l b, l ∈ clipped → b ∈ boundary → meets_at_own_end boundary l b) →
  clip_line_segments clipped boundary = Ok clipped.
Proof.
  rewrite !clip_line_segments_loop. intros Hclip Hmeet.
  destruct subject as [|l0 subject].
  { simpl in Hclip. by injection Hclip as <-. }
  assert (∃ mx, max_x boundary = Ok mx) as [mx Hmx].
  { simpl in Hclip. rewrite clip_body_eq in Hclip.
    destruct (clip_line l0 boundary); cbn in Hclip; [|done].
    destruct (max_x boundary) as [mx|]; [by exists mx | done]. }
  pose proof (clip_keeps_inside boundary (l0 :: subject) [] clipped mx Hmx Hclip
                (Forall_nil_2 _)) as Hkept.
  rewrite (clip_fixed_from boundary clipped [] mx Hmx); [done|].
  apply Forall_forall. intros l Hl.
  destruct (clip_line_own_ends boundary boundary mx l [] [] Hmx)
    as (pre & post & Hsplit & Hpre & Hpost); [|done|done|].
  { apply Forall_forall. intros b Hb. by apply Hmeet. }
  exists (pre ++ l :: post). split; [by rewrite clip_line_loop|].
  apply cull_own_ends; try done.
  rewrite Forall_forall in Hkept. by apply Hkept.
Qed.

End ClipTwiceOnFloats.

(** ** [line_segments_to_simple_path] *)

Section Builder.
Context {N : Number}.

Lemma needs_move_wf (current_end : option point) (start : point) :
  from_option wf_point True current_end → wf_point start →
  needs_move current_end start = Ok (move_needed current_end start).
Proof.
  intros He Hs. destruct current_end as [e|]; simpl in *; [|done].
  rewrite !index_0_wf by done. cbn.
  destruct (approx_equal (px e) (px start)); cbn; [|done].
  rewrite !index_1_wf by done. reflexivity.
Qed.

Lemma line_segments_to_simple_path_loop (segments : list line) :
  line_segments_to_simple_path segments
  = ('(path, _) ← for_each segments build_body ([], None); Ok path).
Proof. reflexivity. Qed.

Lemma build_body_wf (path : list command) (current_end : option point) (l : line) :
  from_option wf_point True current_end → wf_line l →
  build_body (path, current_end) l
  = Ok (path ++ build current_end [l], Some l.2).
Proof.
  intros He [Hl1 Hl2]. unfold build_body.
  rewrite needs_move_wf by done. simpl.
  destruct (move_needed current_end l.1); simpl; by rewrite <- ?app_assoc.
Qed.

(** The loop of the builder, from any path and end so far. *)
Lemma build_from (segments : list line) (path : list command)
    (current_end : option point) :
  Forall wf_line segments → from_option wf_point True current_end →
  ∃ last_end,
    for_each segments build_body (path, current_end)
    = Ok (path ++ build current_end segments, last_end).
Proof.
  intros Hsegs. revert path current_end.
  induction Hsegs as [|l segments Hl _ IH]; intros path current_end He.
  - exists current_end. simpl. by rewrite app_nil_r.
  - rewrite for_each_cons, build_body_wf by done. simpl.
    edestruct IH as [last_end ->]; [apply Hl|].
    exists last_end. by rewrite <- !app_assoc.
Qed.

Lemma build_letters (current_end : option point) (segments : list line) :
  Forall (λ c : command, c.1 = "M" ∨ c.1 = "L") (build current_end segments).
Proof.
  revert current_end. induction segments as [|l ls IH]; intros e; simpl; [done|].
  destruct (move_needed e l.1); simpl.
  - apply Forall_cons. split; [by left|].
    apply Forall_cons. split; [by right | apply IH].
  - apply Forall_cons. split; [by right | apply IH].
Qed.

(** C9. For each segment in order the builder emits a move to the
    start of the segment exactly when there is no previous segment or
    the end of the previous segment is not [approx_equal], in both
    coordinates, to that start, and then always a line to the end of
    the segment; it never emits a close command. *)
Theorem line_segments_to_simple_path_build (segments : list line) :
  Forall wf_line segments →
  line_segments_to_simple_path segments = Ok (build None segments)
  ∧ Forall (λ c : command, c.1 ≠ "Z") (build None segments).
Proof.
  intros Hsegs. split.
  - rewrite line_segments_to_simple_path_loop.
    destruct (build_from segments [] None Hsegs I) as [last_end ->].
    reflexivity.
  - eapply Forall_impl; [apply build_letters|].
    intros c [-> | ->]; done.
Qed.

End Builder.

(** ** [simple_path_to_line_segments] *)

Section Segmenter.
Context {N : Number}.

(** A curve command with its six arguments: the segment ends at the
    end point of the curve, the warning is added to the set, and
    [prev] becomes the whole list of arguments. *)
Lemma segmenter_step_curve (st : segmenter_state) (args : list num) (x y : num) :
  index args 4 = Ok x → index args 5 = Ok y →
  segmenter_step st ("C", args)
  = Ok {| line_segments := line_segments st ++ [(prev st, PList [x; y])];
          first := first st;
          prev := PList args;
          errors := errors st ∪ {[curve_warning]} |}.
Proof. intros Hx Hy. unfold segmenter_step. simpl. rewrite Hx, Hy. reflexivity. Qed.

(** C6, as the code has it. A command of an unsupported kind records
    its warning, emits no segment and keeps the start of the subpath,
    and the current point becomes the list of its operands, so that a
    line command that follows emits a segment from those operands. *)
Theorem segmenter_step_unsupported (st : segmenter_state) (cmd : command) :
  unsupported cmd.1 →
  let st' := {| line_segments := line_segments st;
                first := first st;
                prev := PList cmd.2;
                errors := errors st ∪ {[invalid_warning cmd.1]} |} in
  segmenter_step st cmd = Ok st'
  ∧ ∀ target,
      (st1 ← segmenter_step st cmd;
       st2 ← segmenter_step st1 ("L", target);
       Ok (line_segments st2))
      = Ok (line_segments st ++ [(PList cmd.2, PList target)]).
Proof.
  intros (HM & HL & HZ & HC) st'.
  assert (Hstep : segmenter_step st cmd = Ok st').
  { unfold segmenter_step.
    apply String.eqb_neq in HM, HL, HZ, HC. rewrite HM, HL, HZ, HC.
    reflexivity. }
  split; [done|]. intros target. rewrite Hstep. reflexivity.
Qed.

End Segmenter.


(** * Further properties of the code *)

(** ** The order of the numbers *)

Lemma float_ltb_irrefl (a : float) : PrimFloat.ltb a a = false.
Proof.
  rewrite FloatAxioms.ltb_spec.
  destruct (Prim2SF a) as [s|s| |s m e]; unfold SFltb, SFcompare;
    try destruct s; try reflexivity;
    rewrite Z.compare_refl, ?Pos.compare_cont_refl; reflexivity.
Qed.

Lemma float_ltb_trans (a b c : float) :
  PrimFloat.ltb a b = true → PrimFloat.ltb b c = true → PrimFloat.ltb a c = true.
Proof.
  rewrite !FloatAxioms.ltb_spec.
  destruct (Prim2SF a) as [sa|sa| |sa ma ea], (Prim2SF b) as [sb|sb| |sb mb eb],
    (Prim2SF c) as [sc|sc| |sc mc ec];
    unfold SFltb, SFcompare;
    repeat match goal with s : bool |- _ => destruct s end;
    try (intros; discriminate); try (intros; reflexivity).
  all: destruct (Z.compare_spec ea eb), (Z.compare_spec eb ec), (Z.compare_spec ea ec);
    try (intros; discriminate); try (intros; reflexivity); try lia.
  all: subst; rewrite ?Pos.compare_cont_spec; unfold Pos.switch_Eq.
  all: destruct (Pos.compare_spec ma mb), (Pos.compare_spec mb mc), (Pos.compare_spec ma mc);
    simpl; try (intros; discriminate); try (intros; reflexivity); try lia.
Qed.

Lemma float_order : OrderLaws float_number.
Proof. constructor; [exact float_ltb_irrefl | exact float_ltb_trans]. Qed.
#[global] Existing Instance float_order.

(** ** More on the geometry kernel *)

Section KernelErrors.
Context {N : Number} {L : NumberLaws N}.

(** The only exception [line_intersection] raises is [SystemExit]
    after the curve message, and it raises it exactly when one of the
    four points lacks a coordinate; in particular the division never
    raises [ZeroDivisionError]. *)
Theorem line_intersection_raises_iff (l1_from l1_to l2_from l2_to : point) (e : exn) :
  line_intersection l1_from l1_to l2_from l2_to = Raise e
  ↔ e = SystemExit curve_error
    ∧ (length l1_from < 2 ∨ length l1_to < 2 ∨ length l2_from < 2 ∨ length l2_to < 2).
Proof.
  split.
  - intros Hraise.
    destruct (decide (length l1_from < 2)) as [|H1];
      [rewrite line_intersection_malformed in Hraise by auto;
       injection Hraise as <-; auto|].
    destruct (decide (length l1_to < 2)) as [|H2];
      [rewrite line_intersection_malformed in Hraise by auto;
       injection Hraise as <-; auto|].
    destruct (decide (length l2_from < 2)) as [|H3];
      [rewrite line_intersection_malformed in Hraise by auto;
       injection Hraise as <-; auto|].
    destruct (decide (length l2_to < 2)) as [|H4];
      [rewrite line_intersection_malformed in Hraise by auto;
       injection Hraise as <-; auto 6|].
    rewrite line_intersection_wf in Hraise by (unfold wf_point; lia). done.
  - intros [-> Hshort]. by apply line_intersection_malformed.
Qed.

(** The point that [line_intersection] returns is a new list of two
    coordinates, whatever the length of the lists it is given. *)
Lemma line_intersection_point_wf (l1_from l1_to l2_from l2_to p : point) :
  line_intersection l1_from l1_to l2_from l2_to = Ok (Some p) → length p = 2.
Proof.
  intros H.
  destruct (decide (2 ≤ length l1_from ∧ 2 ≤ length l1_to
                    ∧ 2 ≤ length l2_from ∧ 2 ≤ length l2_to)) as [(?&?&?&?)|Hn].
  - rewrite line_intersection_wf in H by done. unfold intersect in H.
    destruct (approx_equal _ _); [done|].
    destruct (_ && _); [|done]. by injection H as <-.
  - rewrite line_intersection_malformed in H; [done|]. lia.
Qed.

End KernelErrors.

Section MaxX.
Context {N : Number}.

Lemma index_0_cases (p : point) :
  (p = [] ∧ index p 0 = Raise IndexError) ∨ (p ≠ [] ∧ index p 0 = Ok (px p)).
Proof. destruct p; [by left | by right]. Qed.

(** The loop of [max_x], from any running maximum. *)
Lemma max_x_loop_raises (segments : list line) (m0 : num) (e : exn) :
  for_each segments
    (λ maxx l,
       x0 ← index l.1 0;
       let maxx := py_max maxx x0 in
       x1 ← index l.2 0;
       Ok (py_max maxx x1))
    m0 = Raise e
  ↔ e = IndexError ∧ Exists (λ l : line, l.1 = [] ∨ l.2 = []) segments.
Proof.
  revert m0. induction segments as [|l ls IH]; intros m0; simpl.
  - split; [done|]. intros [_ H]. by apply Exists_nil in H.
  - rewrite Exists_cons.
    destruct (index_0_cases l.1) as [[H1 ->]|[H1 ->]]; cbn.
    { split; [intros [= <-]; auto | by intros [-> _]]. }
    destruct (index_0_cases l.2) as [[H2 ->]|[H2 ->]]; cbn.
    { split; [intros [= <-]; auto | by intros [-> _]]. }
    rewrite IH. split; [intros [-> ?]; auto|].
    intros [-> [[?|?]|?]]; done.
Qed.

(** [max_x] raises exactly when an end of a segment has no coordinate
    at all, and what it raises is [IndexError]. *)
Theorem max_x_raises_iff (segments : list line) (e : exn) :
  max_x segments = Raise e
  ↔ e = IndexError ∧ Exists (λ l : line, l.1 = [] ∨ l.2 = []) segments.
Proof. apply max_x_loop_raises. Qed.

Context {O : OrderLaws N}.

Lemma py_max_keeps (z a x : num) : not_above z a → not_above z (py_max a x).
Proof.
  unfold not_above, py_max. intros Hz.
  destruct (nltb a x) eqn:Hax; [|done].
  destruct (nltb x z) eqn:Hxz; [|done].
  by rewrite (nltb_trans a x z Hax Hxz) in Hz.
Qed.

Lemma py_max_covers (a x : num) : not_above x (py_max a x).
Proof.
  unfold not_above, py_max.
  destruct (nltb a x) eqn:Hax; [apply nltb_irrefl | done].
Qed.

Lemma py_max_is_one (a x : num) : py_max a x = a ∨ py_max a x = x.
Proof. unfold py_max. destruct (nltb a x); auto. Qed.

Lemma max_x_loop_bound (segments : list line) (m0 m : num) :
  for_each segments
    (λ maxx l,
       x0 ← index l.1 0;
       let maxx := py_max maxx x0 in
       x1 ← index l.2 0;
       Ok (py_max maxx x1))
    m0 = Ok m →
  (∀ z, not_above z m0 → not_above z m)
  ∧ Forall (λ l : line, not_above (px l.1) m ∧ not_above (px l.2) m) segments
  ∧ (m = m0 ∨ Exists (λ l : line, m = px l.1 ∨ m = px l.2) segments).
Proof.
  revert m0. induction segments as [|l ls IH]; intros m0; simpl.
  - intros [= <-]. auto.
  - destruct (index_0_cases l.1) as [[H1 ->]|[H1 ->]]; cbn; [done|].
    destruct (index_0_cases l.2) as [[H2 ->]|[H2 ->]]; cbn; [done|].
    intros Hrest. destruct (IH _ Hrest) as (Hmono & Hall & Hone).
    split; [|split].
    + intros z Hz. by apply Hmono, py_max_keeps, py_max_keeps.
    + apply Forall_cons. split; [|done]. split.
      * apply Hmono, py_max_keeps, py_max_covers.
      * apply Hmono, py_max_covers.
    + destruct Hone as [->|Hone]; [|right; by apply Exists_cons_tl].
      destruct (py_max_is_one (py_max m0 (px l.1)) (px l.2)) as [->| ->];
        [|right; apply Exists_cons_hd; auto].
      destruct (py_max_is_one m0 (px l.1)) as [->| ->];
        [by left | right; apply Exists_cons_hd; auto].
Qed.

(** What [max_x] returns is not below [0.0], no end of a segment has an
    x coordinate above it, and it is [0.0] or the x coordinate of an
    end of a segment. *)
Theorem max_x_upper_bound (segments : list line) (m : num) :
  max_x segments = Ok m →
  nltb m zero = false
  ∧ (∀ l, l ∈ segments → nltb m (px l.1) = false ∧ nltb m (px l.2) = false)
  ∧ (m = zero ∨ ∃ l, l ∈ segments ∧ (m = px l.1 ∨ m = px l.2)).
Proof.
  intros H. apply max_x_loop_bound in H as (Hmono & Hall & Hone).
  split; [apply Hmono, nltb_irrefl|]. split.
  - intros l Hl. rewrite Forall_forall in Hall. apply (Hall l Hl).
  - destruct Hone as [->|Hone]; [by left|]. right.
    apply Exists_exists in Hone as (l & Hl & Hm). eauto.
Qed.

End MaxX.

(** ** More on the clipping engine *)

Section ClippingEngine.
Context {N : Number} {L : NumberLaws N}.

Lemma crossings_permutation (f : line → bool) (xs ys : list line) :
  xs ≡ₚ ys → length (List.filter f xs) = length (List.filter f ys).
Proof.
  induction 1 as [|x xs ys _ IH|x y xs|xs ys zs _ IH1 _ IH2]; simpl.
  - done.
  - destruct (f x); simpl; by rewrite IH.
  - destruct (f x), (f y); done.
  - by rewrite IH1.
Qed.

Lemma inside_region_by_count (p : point) (boundary boundary' : list line) (mx : num) :
  wf_point p → Forall wf_line boundary → Forall wf_line boundary' →
  length (List.filter (crossed_by_ray p mx) boundary)
  = length (List.filter (crossed_by_ray p mx) boundary') →
  inside_region p boundary mx = inside_region p boundary' mx.
Proof.
  intros Hp Hb Hb' Hcount.
  unfold inside_region. rewrite index_1_wf by done. cbn -[Nat.modulo].
  fold (ray_end p mx).
  rewrite (count_crossings p mx boundary 0 Hp Hb).
  rewrite (count_crossings p mx boundary' 0 Hp Hb').
  by rewrite Hcount.
Qed.

(** The answer of [inside_region] does not depend on the order of the
    boundary segments. *)
Theorem inside_region_boundary_order (p : point) (boundary boundary' : list line)
    (mx : num) :
  wf_point p → Forall wf_line boundary → boundary ≡ₚ boundary' →
  inside_region p boundary mx = inside_region p boundary' mx.
Proof.
  intros Hp Hb Hperm.
  assert (Hb' : Forall wf_line boundary') by (by rewrite <- Hperm).
  apply inside_region_by_count; try done. by apply crossings_permutation.
Qed.

Lemma inside_region_wf (p : point) (boundary : list line) (mx : num) :
  wf_point p → Forall wf_line boundary → ∃ b, inside_region p boundary mx = Ok b.
Proof.
  intros Hp Hb. unfold inside_region. rewrite index_1_wf by done.
  cbn -[Nat.modulo]. fold (ray_end p mx).
  rewrite (count_crossings p mx boundary 0 Hp Hb). by eexists.
Qed.

Lemma chain_app (a b : point) (xs ys : list line) :
  chain a (xs ++ ys) b ↔ ∃ c, chain a xs c ∧ chain c ys b.
Proof.
  revert a. induction xs as [|x xs IH]; intros a; simpl.
  - split; [intros H; by exists a | by intros (c & -> & H)].
  - rewrite IH. split.
    + intros (Hx & c & H1 & H2). by exists c.
    + intros (c & (Hx & H1) & H2). split; [done|]. by exists c.
Qed.

Lemma split_pass (segment : line) (lines acc : list line) :
  wf_line segment → Forall wf_line lines →
  ∃ out,
    for_each lines (split_body segment) acc = Ok (acc ++ out)
    ∧ Forall wf_line out
    ∧ length lines ≤ length out ≤ 2 * length lines
    ∧ ∀ a b, chain a lines b → chain a out b.
Proof.
  intros [Hs1 Hs2] Hlines. revert acc.
  induction Hlines as [|l ls [Hl1 Hl2] _ IH]; intros acc.
  - exists []. simpl. rewrite app_nil_r. repeat split; auto.
  - rewrite for_each_cons, split_body_eq.
    destruct (line_intersection l.1 l.2 segment.1 segment.2) as [[i|]|] eqn:Hi;
      [| |by rewrite line_intersection_wf in Hi].
    + apply line_intersection_point_wf in Hi.
      assert (Hwi : wf_point i) by (unfold wf_point; lia).
      cbn [mbind result_bind]. destruct (IH (acc ++ [(l.1, i); (i, l.2)])) as (out & -> & Hwf & Hlen & Hchain).
      exists ((l.1, i) :: (i, l.2) :: out). rewrite <- app_assoc.
      split; [done|]. split; [by repeat (apply Forall_cons; split)|].
      split; [simpl; lia|].
      intros a b [Ha Hrest]. simpl. auto.
    + cbn [mbind result_bind]. destruct (IH (acc ++ [l])) as (out & -> & Hwf & Hlen & Hchain).
      exists (l :: out). rewrite <- app_assoc.
      split; [done|]. split; [by apply Forall_cons|].
      split; [simpl; lia|].
      intros a b [Ha Hrest]. simpl. auto.
Qed.

Lemma clip_line_from (boundary lines : list line) :
  Forall wf_line boundary → Forall wf_line lines →
  ∃ pieces,
    for_each boundary (λ lines segment, for_each lines (split_body segment) []) lines
    = Ok pieces
    ∧ Forall wf_line pieces
    ∧ length lines ≤ length pieces ≤ length lines * 2 ^ length boundary
    ∧ ∀ a b, chain a lines b → chain a pieces b.
Proof.
  intros Hb. revert lines.
  induction Hb as [|segment bs Hseg _ IH]; intros lines Hlines.
  - exists lines. simpl. repeat split; auto; lia.
  - rewrite for_each_cons.
    destruct (split_pass segment lines [] Hseg Hlines)
      as (out & -> & Hwf & Hlen & Hchain).
    cbn [mbind result_bind app].
    destruct (IH out Hwf) as (pieces & -> & Hwfp & Hlenp & Hchainp).
    exists pieces. split; [done|]. split; [done|]. split; [|by auto].
    cbn [length]. rewrite Nat.pow_succ_r'. nia.
Qed.

(** On points that have their coordinates [clip_line] returns: it
    raises nothing, and the pieces lead from the start of the segment
    to its end, each starting at the very point where the one before
    it ends. There is at least one piece and at most twice as many as
    before for each boundary segment. *)
Theorem clip_line_chain (l : line) (boundary : list line) :
  wf_line l → Forall wf_line boundary →
  ∃ pieces,
    clip_line l boundary = Ok pieces
    ∧ chain l.1 pieces l.2
    ∧ Forall wf_line pieces
    ∧ 1 ≤ length pieces ≤ 2 ^ length boundary.
Proof.
  intros Hl Hb. rewrite clip_line_loop.
  destruct (clip_line_from boundary [l] Hb) as (pieces & -> & Hwf & Hlen & Hchain);
    [by apply Forall_singleton|].
  exists pieces. split; [done|]. split; [by apply Hchain|].
  split; [done|]. simpl in Hlen. lia.
Qed.

(** The loop of [cull_segmented_line], from any list kept so far. *)
Lemma cull_from_sublist (boundary : list line) (mx : num)
    (segmented_line culled kept : list line) :
  for_each segmented_line (cull_body boundary mx) culled = Ok kept →
  ∃ more, kept = culled ++ more ∧ sublist more segmented_line.
Proof.
  revert culled. induction segmented_line as [|l ls IH]; intros culled; simpl.
  - intros [= <-]. exists []. by rewrite app_nil_r.
  - rewrite cull_body_eq.
    destruct (mid_point l) as [m|]; cbn; [|done].
    destruct (inside_region m boundary mx) as [[]|]; cbn; [| |done].
    + intros (more & -> & Hsub)%IH. exists (l :: more).
      rewrite <- app_assoc. split; [done|]. by apply sublist_skip.
    + intros (more & -> & Hsub)%IH. exists more.
      split; [done|]. by apply sublist_cons.
Qed.

(** What [cull_segmented_line] returns is its input with some segments
    left out: nothing is added, changed or reordered. *)
Theorem cull_segmented_line_sublist (segmented_line boundary kept : list line)
    (mx : num) :
  cull_segmented_line segmented_line boundary mx = Ok kept →
  sublist kept segmented_line.
Proof.
  rewrite cull_segmented_line_loop.
  by intros (more & -> & Hsub)%cull_from_sublist.
Qed.

Lemma Forall_of_sublist {A : Type} (P : A → Prop) (xs ys : list A) :
  sublist xs ys → Forall P ys → Forall P xs.
Proof.
  induction 1 as [|x xs ys _ IH|x xs ys _ IH]; intros H; [done| |].
  - apply Forall_cons in H as [Hx H]. apply Forall_cons. auto.
  - apply Forall_cons in H as [_ H]. auto.
Qed.

Lemma cull_wf (segmented_line boundary culled : list line) (mx : num) :
  Forall wf_line segmented_line → Forall wf_line boundary →
  ∃ kept, for_each segmented_line (cull_body boundary mx) culled = Ok kept.
Proof.
  intros Hs Hb. revert culled.
  induction Hs as [|l ls Hl _ IH]; intros culled; simpl; [by eexists|].
  rewrite cull_body_eq.
  destruct (mid_point_wf l Hl) as (m & -> & Hm). cbn.
  destruct (inside_region_wf m boundary mx Hm Hb) as [b ->]. cbn. apply IH.
Qed.

Lemma max_x_wf (boundary : list line) :
  Forall wf_line boundary → ∃ mx, max_x boundary = Ok mx.
Proof.
  intros Hb. destruct (max_x boundary) as [mx|e] eqn:Hmx; [by eexists|].
  apply max_x_loop_raises in Hmx as [_ Hex].
  apply Exists_exists in Hex as (l & Hl & Hempty).
  rewrite Forall_forall in Hb. destruct (Hb l Hl) as [H1 H2].
  unfold wf_point in *. destruct Hempty as [Heq|Heq]; rewrite Heq in *;
    simpl in *; lia.
Qed.

Lemma clip_wf_from (subject boundary clipped : list line) :
  Forall wf_line subject → Forall wf_line boundary → Forall wf_line clipped →
  ∃ kept, for_each subject (clip_body boundary) clipped = Ok kept
          ∧ Forall wf_line kept.
Proof.
  intros Hs Hb. revert clipped.
  induction Hs as [|l ls Hl _ IH]; intros clipped Hc; simpl; [by eexists|].
  rewrite clip_body_eq.
  destruct (clip_line_from boundary [l] Hb) as (pieces & Hp & Hwf & _);
    [by apply Forall_singleton|].
  rewrite clip_line_loop, Hp. cbn -[cull_segmented_line].
  destruct (max_x_wf boundary Hb) as [mx ->]. cbn -[cull_segmented_line].
  rewrite cull_segmented_line_loop.
  destruct (cull_wf pieces boundary [] mx Hwf Hb) as [kept Hkept].
  rewrite Hkept. cbn.
  apply cull_from_sublist in Hkept as (more & -> & Hsub).
  apply IH, Forall_app. split; [done|]. simpl.
  by eapply Forall_of_sublist.
Qed.

(** On a subject and a boundary whose points all have their two
    coordinates the clip returns: no exception is raised, and the
    segments of the result have their coordinates too. *)
Theorem clip_line_segments_returns (subject boundary : list line) :
  Forall wf_line subject → Forall wf_line boundary →
  ∃ clipped, clip_line_segments subject boundary = Ok clipped
             ∧ Forall wf_line clipped.
Proof.
  intros Hs Hb. rewrite clip_line_segments_loop. by apply clip_wf_from.
Qed.

Lemma clip_from_acc (subject boundary clipped : list line) :
  for_each subject (clip_body boundary) clipped
  = (more ← for_each subject (clip_body boundary) []; Ok (clipped ++ more)).
Proof.
  revert clipped. induction subject as [|l ls IH]; intros clipped; simpl.
  - by rewrite app_nil_r.
  - rewrite !clip_body_eq.
    destruct (clip_line l boundary) as [split|]; cbn -[cull_segmented_line]; [|done].
    destruct (max_x boundary) as [mx|]; cbn -[cull_segmented_line]; [|done].
    destruct (cull_segmented_line split boundary mx) as [culled|];
      cbn -[cull_segmented_line]; [|done].
    rewrite (IH (clipped ++ culled)), (IH culled).
    destruct (for_each ls (clip_body boundary) []); cbn; [|done].
    by rewrite app_assoc.
Qed.

(** The subject segments are clipped one by one: the clip of two
    subjects put end to end is the clip of the first followed by the
    clip of the second, and an exception of either is the exception of
    the whole. *)
Theorem clip_line_segments_app (subject1 subject2 boundary : list line) :
  clip_line_segments (subject1 ++ subject2) boundary
  = (clipped1 ← clip_line_segments subject1 boundary;
     clipped2 ← clip_line_segments subject2 boundary;
     Ok (clipped1 ++ clipped2)).
Proof.
  rewrite !clip_line_segments_loop, for_each_app.
  destruct (for_each subject1 (clip_body boundary) []) as [clipped1|]; cbn; [|done].
  apply clip_from_acc.
Qed.

(** Every segment of a clip result passed the test of the cull: its
    midpoint is inside the boundary by [inside_region], with the
    [max_x] of the boundary. *)
Theorem clip_line_segments_inside (subject boundary clipped : list line) :
  clip_line_segments subject boundary = Ok clipped →
  ∀ l, l ∈ clipped →
    ∃ mx m, max_x boundary = Ok mx ∧ mid_point l = Ok m
            ∧ inside_region m boundary mx = Ok true.
Proof.
  rewrite clip_line_segments_loop. intros Hclip l Hl.
  destruct subject as [|l0 subject].
  { simpl in Hclip. injection Hclip as <-. by apply elem_of_nil in Hl. }
  assert (∃ mx, max_x boundary = Ok mx) as [mx Hmx].
  { simpl in Hclip. rewrite clip_body_eq in Hclip.
    destruct (clip_line l0 boundary); cbn in Hclip; [|done].
    destruct (max_x boundary) as [mx|]; [by exists mx | done]. }
  pose proof (clip_keeps_inside boundary (l0 :: subject) [] clipped mx Hmx Hclip
                (Forall_nil_2 _)) as Hkept.
  rewrite Forall_forall in Hkept. destruct (Hkept l Hl) as (m & Hm & Hin).
  by exists mx, m.
Qed.

Lemma mid_point_malformed (l : line) :
  ¬ wf_line l → mid_point l = Raise IndexError.
Proof.
  unfold wf_line, wf_point, mid_point, index. destruct l as [p q]. simpl.
  destruct p as [|? [|? ?]], q as [|? [|? ?]]; simpl; try done; intros H;
    exfalso; apply H; lia.
Qed.

(** Against an empty boundary no intersection is computed, so a
    subject segment that lacks a coordinate is not met by the handler
    of [line_intersection]: the midpoint raises [IndexError]. *)
Theorem clip_empty_boundary_malformed (l : line) (subject : list line) :
  ¬ wf_line l → clip_line_segments (l :: subject) [] = Raise IndexError.
Proof.
  intros Hl. rewrite clip_line_segments_loop. simpl. rewrite clip_body_eq.
  unfold cull_segmented_line. simpl. by rewrite mid_point_malformed.
Qed.

End ClippingEngine.

(** ** More on paths *)

Section Paths.
Context {N : Number}.

Lemma step_move_fresh (st : segmenter_state) (p : list num) :
  equals_empty_list (first st) (line_segments st) = true →
  segmenter_step st ("M", p)
  = Ok {| line_segments := line_segments st; first := PList p;
          prev := PList p; errors := errors st |}.
Proof. intros H. unfold segmenter_step. simpl. by rewrite H. Qed.

Lemma step_move_kept (st : segmenter_state) (p : list num) :
  equals_empty_list (first st) (line_segments st) = false →
  segmenter_step st ("M", p)
  = Ok {| line_segments := line_segments st; first := first st;
          prev := PList p; errors := errors st |}.
Proof. intros H. unfold segmenter_step. simpl. by rewrite H. Qed.

Lemma step_move (st : segmenter_state) (p : list num) :
  ∃ f, segmenter_step st ("M", p)
       = Ok {| line_segments := line_segments st; first := f;
               prev := PList p; errors := errors st |}.
Proof.
  destruct (equals_empty_list (first st) (line_segments st)) eqn:H.
  - eexists. by apply step_move_fresh.
  - eexists. by apply step_move_kept.
Qed.

Lemma step_line (st : segmenter_state) (p : list num) :
  segmenter_step st ("L", p)
  = Ok {| line_segments := line_segments st ++ [(prev st, PList p)];
          first := first st; prev := PList p; errors := errors st |}.
Proof. reflexivity. Qed.

Lemma step_close (st : segmenter_state) (args : list num) :
  segmenter_step st ("Z", args)
  = Ok {| line_segments := line_segments st ++ [(prev st, first st)];
          first := PList []; prev := PList args; errors := errors st |}.
Proof. reflexivity. Qed.

Lemma last_cons_skip {A : Type} (x d : A) (xs : list A) :
  List.last (x :: xs) d = List.last xs x.
Proof.
  revert x d. induction xs as [|a xs IH]; intros x d; [done|].
  change (List.last (x :: a :: xs) d) with (List.last (a :: xs) d).
  by rewrite (IH a d), (IH a x).
Qed.

(** Line commands from a state whose current point is [p0]. *)
Lemma lines_from (ps : list (list num)) (st : segmenter_state) (p0 : list num) :
  prev st = PList p0 →
  for_each (line_to ps) segmenter_step st
  = Ok {| line_segments := line_segments st ++ consecutive p0 ps;
          first := first st; prev := PList (List.last ps p0);
          errors := errors st |}.
Proof.
  revert st p0. induction ps as [|p ps IH]; intros st p0 Hprev.
  - destruct st; simpl in *; subst. by rewrite app_nil_r.
  - change (line_to (p :: ps)) with (("L", p) :: line_to ps).
    rewrite for_each_cons, step_line, last_cons_skip. cbn [mbind result_bind].
    rewrite (IH _ p) by done. simpl. by rewrite Hprev, <- app_assoc.
Qed.

(** The example of the docstring, for any number of points: a move
    followed by line commands becomes the segments between consecutive
    points, with no warning. *)
Theorem polyline_segments (p0 : list num) (ps : list (list num)) :
  simple_path_to_line_segments (("M", p0) :: line_to ps)
  = Ok (consecutive p0 ps, ∅).
Proof.
  unfold simple_path_to_line_segments.
  rewrite for_each_cons, step_move_fresh by done. cbn [mbind result_bind].
  by rewrite (lines_from ps _ p0).
Qed.

Lemma closed_subpath_from (sub : list num * list (list num)) (st : segmenter_state) :
  equals_empty_list (first st) (line_segments st) = true →
  for_each (closed_subpath sub) segmenter_step st
  = Ok {| line_segments := line_segments st ++ closed_segments sub;
          first := PList []; prev := PList []; errors := errors st |}.
Proof.
  intros Hfirst. unfold closed_subpath, closed_segments.
  rewrite for_each_cons, step_move_fresh by done. cbn [mbind result_bind].
  rewrite for_each_app, (lines_from _ _ sub.1) by done. cbn [mbind result_bind].
  rewrite for_each_cons, step_close. simpl. by rewrite <- app_assoc.
Qed.

Lemma closed_subpaths_from (subs : list (list num * list (list num)))
    (st : segmenter_state) :
  equals_empty_list (first st) (line_segments st) = true →
  ∃ f p,
    for_each (concat (closed_subpath <$> subs)) segmenter_step st
    = Ok {| line_segments := line_segments st ++ concat (closed_segments <$> subs);
            first := f; prev := p; errors := errors st |}.
Proof.
  revert st. induction subs as [|sub subs IH]; intros st Hfirst.
  - exists (first st), (prev st). destruct st; simpl. by rewrite app_nil_r.
  - rewrite !fmap_cons. cbn [concat].
    rewrite for_each_app, closed_subpath_from by done. cbn [mbind result_bind].
    edestruct IH as (f & p & ->); [reflexivity|].
    exists f, p. simpl. by rewrite <- app_assoc.
Qed.

(** A path of closed subpaths: each close command adds the segment
    from the last point of its subpath back to the move of that same
    subpath, and there is no warning. *)
Theorem closed_subpaths_segments (subs : list (list num * list (list num))) :
  simple_path_to_line_segments (concat (closed_subpath <$> subs))
  = Ok (concat (closed_segments <$> subs), ∅).
Proof.
  unfold simple_path_to_line_segments.
  by destruct (closed_subpaths_from subs segmenter_init eq_refl) as (f & p & ->).
Qed.

(** A second move before the close does not start the subpath anew:
    the close command returns to the first move since the last close,
    not to the latest one. *)
Theorem close_returns_to_first_move (p0 q0 : list num) (ps qs : list (list num)) :
  p0 ≠ [] →
  simple_path_to_line_segments
    (("M", p0) :: line_to ps ++ ("M", q0) :: line_to qs ++ [("Z", [])])
  = Ok (consecutive p0 ps ++ consecutive q0 qs
        ++ [(PList (List.last qs q0), PList p0)], ∅).
Proof.
  intros Hp0. unfold simple_path_to_line_segments.
  rewrite for_each_cons, step_move_fresh by done. cbn [mbind result_bind].
  rewrite for_each_app, (lines_from _ _ p0) by done. cbn [mbind result_bind].
  rewrite for_each_cons, step_move_kept by (simpl; by destruct p0).
  cbn [mbind result_bind].
  rewrite for_each_app, (lines_from _ _ q0) by done. cbn [mbind result_bind].
  rewrite for_each_cons, step_close. simpl. by rewrite <- app_assoc.
Qed.

Lemma index_cases (p : point) (i : nat) :
  (length p ≤ i ∧ index p i = Raise IndexError)
  ∨ (∃ x, i < length p ∧ index p i = Ok x).
Proof.
  unfold index. destruct (p !! i) as [x|] eqn:H.
  - right. exists x. split; [by eapply lookup_lt_Some | done].
  - left. split; [by apply lookup_ge_None | done].
Qed.

(** What one command does to the segments and to the warnings. *)
Lemma segmenter_step_cases (st : segmenter_state) (cmd : command) :
  (short_curve cmd ∧ segmenter_step st cmd = Raise IndexError)
  ∨ (¬ short_curve cmd
     ∧ ∃ st', segmenter_step st cmd = Ok st'
       ∧ length (line_segments st')
         = length (line_segments st) + (if emits_segment cmd then 1 else 0)
       ∧ errors st' = errors st ∪ warnings_of cmd).
Proof.
  destruct cmd as [kind args]. unfold short_curve, emits_segment, warnings_of.
  unfold segmenter_step. simpl.
  destruct (String.eqb kind "M") eqn:HM.
  { apply String.eqb_eq in HM as ->. right. split; [by intros [? _]|].
    destruct (equals_empty_list _ _); eexists; simpl;
      (split; [reflexivity|]); simpl;
      (split; [lia | by rewrite (right_id_L ∅ (∪))]). }
  destruct (String.eqb kind "L") eqn:HL.
  { apply String.eqb_eq in HL as ->. right. split; [by intros [? _]|].
    eexists. split; [reflexivity|]. simpl. rewrite length_app. simpl.
    split; [lia | by rewrite (right_id_L ∅ (∪))]. }
  destruct (String.eqb kind "Z") eqn:HZ.
  { apply String.eqb_eq in HZ as ->. right. split; [by intros [? _]|].
    eexists. split; [reflexivity|]. simpl. rewrite length_app. simpl.
    split; [lia | by rewrite (right_id_L ∅ (∪))]. }
  destruct (String.eqb kind "C") eqn:HC.
  { apply String.eqb_eq in HC as ->.
    destruct (index_cases args 4) as [[H4 ->]|[x [H4 ->]]]; cbn.
    { left. split; [split; [done|lia]|done]. }
    destruct (index_cases args 5) as [[H5 ->]|[y [H5 ->]]]; cbn.
    { left. split; [split; [done|lia]|done]. }
    right. split; [intros [_ ?]; lia|].
    eexists. split; [reflexivity|]. simpl. rewrite length_app. simpl.
    split; [lia|done]. }
  right. apply String.eqb_neq in HC. split; [by intros [? _]|].
  eexists. split; [reflexivity|]. simpl. split; [lia|done].
Qed.

Lemma segmenter_from (path : list command) (st : segmenter_state) :
  (∃ st', for_each path segmenter_step st = Ok st'
          ∧ Forall (λ cmd, ¬ short_curve cmd) path
          ∧ length (line_segments st')
            = length (line_segments st) + length (List.filter emits_segment path)
          ∧ errors st' = errors st ∪ ⋃ (warnings_of <$> path))
  ∨ (for_each path segmenter_step st = Raise IndexError
     ∧ Exists short_curve path).
Proof.
  revert st. induction path as [|cmd path IH]; intros st.
  - left. exists st. simpl. split; [done|]. split; [done|].
    split; [lia | by rewrite (right_id_L ∅ (∪))].
  - rewrite for_each_cons.
    destruct (segmenter_step_cases st cmd) as [[Hshort ->]|(Hok & st1 & -> & Hlen & Herr)].
    { right. split; [done|]. by apply Exists_cons_hd. }
    cbn [mbind result_bind].
    destruct (IH st1) as [(st' & -> & Hall & Hlen' & Herr')|[-> Hex]].
    + left. exists st'. split; [done|]. split; [by apply Forall_cons|].
      split.
      * rewrite Hlen', Hlen. simpl. destruct (emits_segment cmd); simpl; lia.
      * rewrite Herr', Herr, fmap_cons. simpl. by rewrite (assoc_L (∪)).
    + right. split; [done|]. by apply Exists_cons_tl.
Qed.

(** The segmenter raises exactly when a curve command has fewer than
    six arguments, and what it raises is [IndexError]; nothing catches
    it. *)
Theorem segmenter_raises_iff (path : list command) (e : exn) :
  simple_path_to_line_segments path = Raise e
  ↔ e = IndexError ∧ Exists short_curve path.
Proof.
  unfold simple_path_to_line_segments.
  destruct (segmenter_from path segmenter_init)
    as [(st' & -> & Hall & _)|[-> Hex]]; cbn.
  - split; [done|]. intros [_ Hex]. apply Exists_exists in Hex as (c & Hc & Hs).
    rewrite Forall_forall in Hall. by destruct (Hall c Hc).
  - split; [by intros [= <-] | by intros [-> _]].
Qed.

(** The segmenter returns one segment for each line, close and curve
    command, and none for any other command. *)
Theorem segmenter_segment_count (path : list command)
    (segments : list raw_line) (warnings : gset string) :
  simple_path_to_line_segments path = Ok (segments, warnings) →
  length segments = length (List.filter emits_segment path).
Proof.
  unfold simple_path_to_line_segments.
  destruct (segmenter_from path segmenter_init)
    as [(st' & -> & _ & Hlen & _)|[-> _]]; cbn; [|done].
  intros [= <- _]. by rewrite Hlen.
Qed.

(** The warnings are the union, over the commands of the path, of the
    warning of each: one text for all the curve commands, and one text
    for each unsupported kind that occurs. A path of move, line and
    close commands has none. *)
Theorem segmenter_warnings (path : list command)
    (segments : list raw_line) (warnings : gset string) :
  simple_path_to_line_segments path = Ok (segments, warnings) →
  warnings = ⋃ (warnings_of <$> path)
  ∧ (Forall (λ cmd : command, cmd.1 = "M" ∨ cmd.1 = "L" ∨ cmd.1 = "Z") path →
     warnings = ∅).
Proof.
  unfold simple_path_to_line_segments.
  destruct (segmenter_from path segmenter_init)
    as [(st' & -> & _ & _ & Herr)|[-> _]]; cbn; [|done].
  intros [= _ <-]. rewrite Herr. simpl. rewrite (left_id_L ∅ (∪)).
  split; [done|]. clear. induction 1 as [|cmd path Hcmd _ IH]; [done|].
  rewrite fmap_cons. simpl. rewrite IH, (right_id_L ∅ (∪)).
  unfold warnings_of. destruct Hcmd as [->| [->| ->]]; done.
Qed.

End Paths.

Section BuildAndRead.
Context {N : Number}.

Lemma step_move_cmd (st : segmenter_state) (cmd : command) :
  cmd.1 = "M" →
  ∃ f, segmenter_step st cmd
       = Ok {| line_segments := line_segments st; first := f;
               prev := PList cmd.2; errors := errors st |}.
Proof. destruct cmd as [kind p]. simpl. intros ->. apply step_move. Qed.

Lemma step_line_cmd (st : segmenter_state) (cmd : command) :
  cmd.1 = "L" →
  segmenter_step st cmd
  = Ok {| line_segments := line_segments st ++ [(prev st, PList cmd.2)];
          first := first st; prev := PList cmd.2; errors := errors st |}.
Proof. destruct cmd as [kind p]. simpl. by intros ->. Qed.

(** Reading the commands that [build] emits, from a state whose
    current point is the end of the segment before. *)
Lemma read_built (segments : list line) (current_end : option point)
    (st : segmenter_state) :
  (∀ e, current_end = Some e → prev st = PList e) →
  ∃ f p,
    for_each (build current_end segments) segmenter_step st
    = Ok {| line_segments := line_segments st ++ (raw <$> snap current_end segments);
            first := f; prev := p; errors := errors st |}.
Proof.
  revert current_end st. induction segments as [|s rest IH]; intros ce st Hprev.
  - exists (first st), (prev st). destruct st; simpl. by rewrite app_nil_r.
  - cbn [build snap].
    destruct (move_needed ce s.1) eqn:Hmove.
    + cbn [app]. rewrite for_each_cons.
      match goal with |- context [segmenter_step st ?c] =>
        destruct (step_move_cmd st c eq_refl) as [f ->] end.
      cbn [mbind result_bind].
      rewrite for_each_cons, step_line_cmd by done. cbn [mbind result_bind].
      edestruct (IH (Some s.2)) as (f' & p' & ->);
        [by intros e [= <-]|].
      exists f', p'. simpl. rewrite <- app_assoc. do 3 f_equal.
      by destruct ce.
    + destruct ce as [e|]; [|done].
      cbn [app]. rewrite for_each_cons, step_line_cmd by done.
      cbn [mbind result_bind].
      edestruct (IH (Some s.2)) as (f' & p' & ->);
        [by intros e' [= <-]|].
      exists f', p'. simpl. rewrite <- app_assoc, (Hprev e eq_refl). done.
Qed.

(** Writing segments back as a path and reading that path again gives
    the segments back, except that a start within tolerance of the end
    before it has become that end; no warning is recorded. *)
Theorem build_then_read (segments : list line) :
  Forall wf_line segments →
  (path ← line_segments_to_simple_path segments; simple_path_to_line_segments path)
  = Ok (raw <$> snap None segments, ∅).
Proof.
  intros Hwf. rewrite line_segments_to_simple_path_loop.
  destruct (build_from segments [] None Hwf I) as [last_end ->].
  cbn [mbind result_bind app]. unfold simple_path_to_line_segments.
  by destruct (read_built segments None segmenter_init) as (f & p & ->).
Qed.

Lemma build_lines (current_end : option point) (segments : list line) :
  List.filter (λ c : command, String.eqb c.1 "L") (build current_end segments)
  = ((λ s : line, ("L", s.2)) <$> segments)
  ∧ length segments ≤ length (build current_end segments) ≤ 2 * length segments.
Proof.
  revert current_end. induction segments as [|s rest IH]; intros ce; simpl.
  - split; [done|lia].
  - destruct (IH (Some s.2)) as [Hf Hl].
    destruct (move_needed ce s.1); simpl; rewrite Hf; split; try done; lia.
Qed.

(** The path that the builder returns has one line command for each
    segment, to the end of that segment and in the order of the
    segments; everything else in it is a move, the first command is the
    move to the start of the first segment, and there are at most as
    many moves as segments. *)
Theorem builder_line_commands (segments : list line) :
  Forall wf_line segments →
  ∃ path,
    line_segments_to_simple_path segments = Ok path
    ∧ List.filter (λ c : command, String.eqb c.1 "L") path
      = ((λ s : line, ("L", s.2)) <$> segments)
    ∧ head path = (λ s : line, ("M", s.1)) <$> head segments
    ∧ length segments ≤ length path ≤ 2 * length segments.
Proof.
  intros Hwf. rewrite line_segments_to_simple_path_loop.
  destruct (build_from segments [] None Hwf I) as [last_end ->].
  exists (build None segments). cbn [mbind result_bind app].
  destruct (build_lines None segments) as [Hf Hl].
  split; [done|]. split; [done|]. split; [|done].
  by destruct segments.
Qed.

Lemma build_joined (e : point) (segments : list line) :
  joined e segments →
  build (Some e) segments = line_to ((λ s : line, s.2) <$> segments).
Proof.
  revert e. induction segments as [|s rest IH]; intros e; simpl; [done|].
  intros [-> Hrest]. simpl. by rewrite IH.
Qed.

(** Segments whose joints are all within tolerance come back as one
    polyline: a single move to the first start, then a line command to
    the end of each segment. *)
Theorem builder_single_polyline (s : line) (rest : list line) :
  Forall wf_line (s :: rest) → joined s.2 rest →
  line_segments_to_simple_path (s :: rest)
  = Ok (("M", s.1) :: ("L", s.2) :: line_to ((λ s : line, s.2) <$> rest)).
Proof.
  intros Hwf Hjoined. rewrite line_segments_to_simple_path_loop.
  destruct (build_from (s :: rest) [] None Hwf I) as [last_end ->].
  cbn [mbind result_bind app build move_needed]. by rewrite build_joined.
Qed.

End BuildAndRead.

(** ** The program on concrete inputs *)

Section OnConcreteInputs.
Import OnFloats.
Local Open Scope float_scope.



Lemma line_intersection_cases_witness :
  wf_point [0; 0] ∧ wf_point [2; 2] ∧ wf_point [0; 2] ∧ wf_point [2; 0]
  ∧ line_intersection [0; 0] [2; 2] [0; 2] [2; 0]
    = Ok (Some (point_along [0; 0] [2; 2] (param_t [0; 0] [2; 2] [0; 2] [2; 0]))).
Proof.
  assert (Hwf : ∀ x y : float, wf_point [x; y])
    by (intros; unfold wf_point; simpl; lia).
  repeat (split; [apply Hwf|]).
  destruct (line_intersection_cases (N := float_number) [0; 0] [2; 2] [0; 2] [2; 0]
              (Hwf _ _) (Hwf _ _) (Hwf _ _) (Hwf _ _)) as [_ Hcross].
  destruct (Hcross eq_refl) as ([_ Hpoint] & Hwhere & _).
  destruct Hpoint as [p Hp]; [split; reflexivity|].
  rewrite Hp. by rewrite (Hwhere p Hp).
Defined.

(** C3 fails on the code: two colinear segments that share exactly the
    end [(1, 0)] have no intersection. *)
Lemma colinear_shared_endpoint_none :
  line_intersection [0; 0] [1; 0] [1; 0] [2; 0] = Ok None
  ∧ line_intersection [0; 0] [1; 0] [1; 0] [2; 0] ≠ Ok (Some [1; 0]).
Proof. split; [reflexivity | vm_compute; discriminate]. Qed.

Lemma shared_start_returned_witness :
  wf_point [5; 0] ∧ wf_point [10; 0] ∧ wf_point [5; 15] ∧ wf_point [5; 0]
  ∧ approx_equal (cross_denominator [5; 0] [10; 0] [5; 15] [5; 0]) zero = false
  ∧ is_finite (cross_denominator [5; 0] [10; 0] [5; 15] [5; 0]) = true
  ∧ starts_at_an_end [5; 0] [5; 15] [5; 0]
  ∧ ∃ x y, line_intersection [5; 0] [10; 0] [5; 15] [5; 0] = Ok (Some [x; y])
           ∧ (x =? 5) = true ∧ (y =? 0) = true.
Proof.
  assert (Hwf : ∀ x y : float, wf_point [x; y])
    by (intros; unfold wf_point; simpl; lia).
  assert (Hends : starts_at_an_end [5; 0] [5; 15] [5; 0])
    by (right; repeat split; reflexivity).
  repeat (split; [apply Hwf|]).
  split; [reflexivity|]. split; [reflexivity|]. split; [exact Hends|].
  destruct (shared_start_returned [5; 0] [10; 0] [5; 15] [5; 0]
              (Hwf _ _) (Hwf _ _) (Hwf _ _) (Hwf _ _)) as [_ Hshared].
  exact (Hshared eq_refl eq_refl Hends).
Defined.

(** A shared end that is the end of both segments can be missed: the
    parameters are computed from rounded differences, and one of them
    comes out above 1. *)
Lemma shared_end_missed :
  line_intersection [2.6; 1.2] [4.9; 5.5] [6.2; 0.3] [4.9; 5.5] = Ok None
  ∧ approx_equal (cross_denominator [2.6; 1.2] [4.9; 5.5] [6.2; 0.3] [4.9; 5.5]) zero
    = false.
Proof. split; reflexivity. Qed.

(** Without the bound on the product the shared start is missed as
    well: the numerator of [t] is the difference of two infinities. *)
Lemma shared_start_overflow :
  line_intersection [1; 1] [1; 1.0000000000000002] [-1e200; -1e200] [1; 1]
  = Ok None
  ∧ approx_equal
      (cross_denominator [1; 1] [1; 1.0000000000000002] [-1e200; -1e200] [1; 1])
      zero = false
  ∧ is_finite
      (cross_denominator [1; 1] [1; 1.0000000000000002] [-1e200; -1e200] [1; 1])
    = true.
Proof. repeat split; reflexivity. Qed.

(** A shared end that is the end of the first segment and the start of
    the second is returned with a rounding error: the segments share
    [(0.7, 0.9)]. *)
Lemma shared_endpoint_rounded :
  line_intersection [0.1; 0.2] [0.7; 0.9] [0.7; 0.9] [5; 7]
  = Ok (Some [0.7; 0.89999999999999991])
  ∧ (0.89999999999999991 =? 0.9) = false.
Proof. split; reflexivity. Qed.

(** C4: on a segment set with negative coordinates only, [max_x]
    returns the [0.0] it starts from, not the greatest coordinate
    [-1.0]. *)
Lemma max_x_all_negative : max_x [([-2; 0], [-1; 0])] = Ok 0.
Proof. reflexivity. Qed.

Lemma inside_region_parity_witness :
  wf_point [7; 5] ∧ Forall wf_line square_5_15
  ∧ inside_region [7; 5] square_5_15 15 = Ok true.
Proof.
  assert (Hp : wf_point [7; 5]) by (unfold wf_point; simpl; lia).
  assert (Hb : Forall wf_line square_5_15)
    by (repeat constructor; unfold wf_point; simpl; lia).
  split; [exact Hp|]. split; [exact Hb|].
  rewrite (inside_region_parity (N := float_number) [7; 5] square_5_15 15 Hp Hb). reflexivity.
Defined.

(** C6 fails on the code: after the unsupported command [Q] the line
    command emits a segment from the operands of [Q], not from the
    point [(0, 0)] that the move command had set. *)
Lemma unsupported_command_moves_current_point :
  simple_path_to_line_segments
    [("M", [0; 0]); ("Q", [5; 5; 9; 9]); ("L", [1; 1])]
  = Ok ([(PList [5; 5; 9; 9], PList [1; 1])], {[invalid_warning "Q"]})
  ∧ simple_path_to_line_segments [("M", [0; 0]); ("L", [1; 1])]
    = Ok ([(PList [0; 0], PList [1; 1])], ∅).
Proof. split; vm_compute; reflexivity. Qed.

Lemma segmenter_step_unsupported_witness :
  unsupported "Q"
  ∧ segmenter_step segmenter_init ("Q", [5; 5; 9; 9])
    = Ok {| line_segments := []; first := PSelf; prev := PList [5; 5; 9; 9];
            errors := ∅ ∪ {[invalid_warning "Q"]} |}.
Proof.
  assert (H : unsupported "Q") by (repeat split; discriminate).
  split; [exact H|].
  apply (segmenter_step_unsupported (N := float_number) segmenter_init ("Q", [5; 5; 9; 9]) H).
Defined.

(** C7: of two curve commands the set keeps one warning, and the
    segment of the second curve starts from the argument list of the
    first, whose first two entries are a control point, not from the
    end point [(3, 3)] of the first curve. *)
Lemma curve_endpoint_not_next_start :
  simple_path_to_line_segments
    [("M", [0; 0]); ("C", [1; 1; 2; 2; 3; 3]); ("C", [4; 4; 5; 5; 6; 6])]
  = Ok ([(PList [0; 0], PList [3; 3]);
         (PList [1; 1; 2; 2; 3; 3], PList [6; 6])],
        {[curve_warning]}).
Proof. vm_compute. reflexivity. Qed.

(** C8 fails on the code: the segment kept by a first clip ends on the
    boundary, so a second clip splits it there again and keeps the
    piece of length zero as well. *)
Lemma clip_twice_differs :
  clip_line_segments [([10; 5], [20; 5])] square_5_15
  = Ok [([10; 5], [15; 5])]
  ∧ clip_line_segments [([10; 5], [15; 5])] square_5_15
    = Ok [([10; 5], [15; 5]); ([15; 5], [15; 5])]
  ∧ (clipped ← clip_line_segments [([10; 5], [20; 5])] square_5_15;
     clip_line_segments clipped square_5_15)
    ≠ clip_line_segments [([10; 5], [20; 5])] square_5_15.
Proof. repeat split; try reflexivity. vm_compute. discriminate. Qed.

Lemma clip_twice_own_ends_witness :
  clip_line_segments
    [([0; 0], [10; 0]); ([10; 0], [10; 10]); ([10; 10], [0; 10]); ([0; 10], [0; 0])]
    square_5_15
  = Ok [([5; 0], [10; 0]); ([10; 0], [10; 10]); ([10; 10], [5; 10])]
  ∧ (∀ l b, l ∈ [([5; 0], [10; 0]); ([10; 0], [10; 10]); ([10; 10], [5; 10])] →
            b ∈ square_5_15 → meets_at_own_end square_5_15 l b)
  ∧ clip_line_segments
      [([5; 0], [10; 0]); ([10; 0], [10; 10]); ([10; 10], [5; 10])] square_5_15
    = Ok [([5; 0], [10; 0]); ([10; 0], [10; 10]); ([10; 10], [5; 10])].
Proof.
  assert (Hclip :
    clip_line_segments
      [([0; 0], [10; 0]); ([10; 0], [10; 10]); ([10; 10], [0; 10]); ([0; 10], [0; 0])]
      square_5_15
    = Ok [([5; 0], [10; 0]); ([10; 0], [10; 10]); ([10; 10], [5; 10])])
    by reflexivity.
  assert (Hmeet :
    ∀ l b, l ∈ [([5; 0], [10; 0]); ([10; 0], [10; 10]); ([10; 10], [5; 10])] →
           b ∈ square_5_15 → meets_at_own_end square_5_15 l b).
  { intros l b Hl Hb. unfold square_5_15 in Hb.
    by_cases_of_membership;
      first [ left; reflexivity
            | right; left; split; reflexivity
            | right; right; split; reflexivity ]. }
  split; [exact Hclip|]. split; [exact Hmeet|].
  exact (clip_twice_own_ends _ square_5_15 _ Hclip Hmeet).
Defined.

Lemma line_segments_to_simple_path_build_witness :
  Forall wf_line [([0; 0], [1; 0]); ([1; 0], [1; 1]); ([2; 2], [3; 3])]
  ∧ line_segments_to_simple_path
      [([0; 0], [1; 0]); ([1; 0], [1; 1]); ([2; 2], [3; 3])]
    = Ok [("M", [0; 0]); ("L", [1; 0]); ("L", [1; 1]);
          ("M", [2; 2]); ("L", [3; 3])].
Proof.
  assert (H : Forall wf_line
                [([0; 0], [1; 0]); ([1; 0], [1; 1]); ([2; 2], [3; 3])])
    by (repeat constructor; unfold wf_point; simpl; lia).
  split; [exact H|].
  destruct (line_segments_to_simple_path_build (N := float_number) _ H) as [-> _]. reflexivity.
Defined.

Lemma clip_empty_boundary_witness :
  Forall wf_line [([0; 0], [10; 0]); ([10; 0], [10; 10])]
  ∧ clip_line_segments [([0; 0], [10; 0]); ([10; 0], [10; 10])] [] = Ok [].
Proof.
  assert (H : Forall wf_line [([0; 0], [10; 0]); ([10; 0], [10; 10])])
    by (repeat constructor; unfold wf_point; simpl; lia).
  split; [exact H|]. apply (clip_empty_boundary (N := float_number) _ H).
Defined.

End OnConcreteInputs.


(** ** The further properties on concrete inputs *)

Section FurtherConcreteInputs.
Import OnFloats.
Local Open Scope float_scope.

Lemma float_wf_point (x y : float) : wf_point (N := float_number) [x; y].
Proof. unfold wf_point. simpl. lia. Qed.

Lemma float_wf_line (x1 y1 x2 y2 : float) :
  wf_line (N := float_number) ([x1; y1], [x2; y2]).
Proof. split; apply float_wf_point. Qed.

Lemma square_wf : Forall wf_line square_5_15.
Proof. repeat constructor; unfold wf_point; simpl; lia. Qed.

Lemma line_intersection_raises_iff_witness :
  line_intersection [1] [1; 1] [5; -5] [15; -5] = Raise (SystemExit curve_error)
  ↔ SystemExit curve_error = SystemExit curve_error
    ∧ (length ([1] : point) < 2 ∨ length ([1; 1] : point) < 2
       ∨ length ([5; -5] : point) < 2 ∨ length ([15; -5] : point) < 2).
Proof.
  apply (line_intersection_raises_iff (N := float_number) [1] [1; 1] [5; -5] [15; -5]).
Defined.

Lemma max_x_upper_bound_witness :
  max_x [([-2; 0], [7; 0]); ([3; 1], [-1; 4])] = Ok 7
  ∧ PrimFloat.ltb 7 0 = false.
Proof.
  assert (H : max_x [([-2; 0], [7; 0]); ([3; 1], [-1; 4])] = Ok 7) by reflexivity.
  split; [exact H|].
  apply (max_x_upper_bound (N := float_number) _ _ H).
Defined.

Lemma inside_region_boundary_order_witness :
  wf_point [7; 5] ∧ Forall wf_line square_5_15
  ∧ square_5_15 ≡ₚ reverse square_5_15
  ∧ inside_region [7; 5] square_5_15 15
    = inside_region [7; 5] (reverse square_5_15) 15.
Proof.
  assert (Hperm : square_5_15 ≡ₚ reverse square_5_15)
    by (symmetry; apply reverse_Permutation).
  split; [apply float_wf_point|]. split; [exact square_wf|].
  split; [exact Hperm|].
  apply (inside_region_boundary_order (N := float_number) _ _ _ _
           (float_wf_point 7 5) square_wf Hperm).
Defined.

Lemma clip_line_chain_witness :
  wf_line ([0; 5], [20; 5]) ∧ Forall wf_line square_5_15
  ∧ ∃ pieces,
      clip_line ([0; 5], [20; 5]) square_5_15 = Ok pieces
      ∧ chain [0; 5] pieces [20; 5]
      ∧ Forall wf_line pieces
      ∧ 1 ≤ length pieces ≤ 2 ^ length square_5_15.
Proof.
  split; [apply float_wf_line|]. split; [exact square_wf|].
  apply (clip_line_chain (N := float_number) ([0; 5], [20; 5]) square_5_15
           (float_wf_line 0 5 20 5) square_wf).
Defined.

Lemma cull_segmented_line_sublist_witness :
  cull_segmented_line [([0; 5], [5; 5]); ([5; 5], [15; 5]); ([15; 5], [20; 5])]
    square_5_15 15
  = Ok [([5; 5], [15; 5])]
  ∧ sublist [([5; 5], [15; 5])]
      [([0; 5], [5; 5]); ([5; 5], [15; 5]); ([15; 5], [20; 5])].
Proof.
  assert (H : cull_segmented_line
                [([0; 5], [5; 5]); ([5; 5], [15; 5]); ([15; 5], [20; 5])]
                square_5_15 15
              = Ok [([5; 5], [15; 5])]) by reflexivity.
  split; [exact H|].
  apply (cull_segmented_line_sublist (N := float_number) _ _ _ _ H).
Defined.

Lemma clip_line_segments_returns_witness :
  Forall wf_line [([0; 5], [20; 5])] ∧ Forall wf_line square_5_15
  ∧ ∃ clipped, clip_line_segments [([0; 5], [20; 5])] square_5_15 = Ok clipped
               ∧ Forall wf_line clipped.
Proof.
  assert (Hs : Forall wf_line [([0; 5], [20; 5])])
    by (apply Forall_singleton, float_wf_line).
  split; [exact Hs|]. split; [exact square_wf|].
  apply (clip_line_segments_returns (N := float_number) _ _ Hs square_wf).
Defined.

Lemma clip_line_segments_inside_witness :
  clip_line_segments [([0; 5], [20; 5])] square_5_15 = Ok [([5; 5], [15; 5])]
  ∧ ∃ mx m, max_x square_5_15 = Ok mx ∧ mid_point ([5; 5], [15; 5]) = Ok m
            ∧ inside_region m square_5_15 mx = Ok true.
Proof.
  assert (H : clip_line_segments [([0; 5], [20; 5])] square_5_15
              = Ok [([5; 5], [15; 5])]) by reflexivity.
  split; [exact H|].
  apply (clip_line_segments_inside (N := float_number) _ _ _ H).
  constructor.
Defined.

Lemma clip_empty_boundary_malformed_witness :
  ¬ wf_line ([], [2; 2])
  ∧ clip_line_segments [([], [2; 2]); ([0; 0], [1; 1])] [] = Raise IndexError.
Proof.
  assert (H : ¬ wf_line (N := float_number) ([], [2; 2]))
    by (intros [H _]; unfold wf_point in H; simpl in H; lia).
  split; [exact H|].
  apply (clip_empty_boundary_malformed (N := float_number) _ _ H).
Defined.

Lemma close_returns_to_first_move_witness :
  ([0; 0] : list float) ≠ []
  ∧ simple_path_to_line_segments
      [("M", [0; 0]); ("L", [4; 0]); ("M", [9; 9]); ("L", [9; 5]); ("Z", [])]
    = Ok ([(PList [0; 0], PList [4; 0]); (PList [9; 9], PList [9; 5]);
           (PList [9; 5], PList [0; 0])], ∅).
Proof.
  assert (H : ([0; 0] : list float) ≠ []) by discriminate.
  split; [exact H|].
  apply (close_returns_to_first_move (N := float_number)
           [0; 0] [9; 9] [[4; 0]] [[9; 5]] H).
Defined.

Lemma segmenter_segment_count_witness :
  simple_path_to_line_segments
    [("M", [0; 0]); ("L", [4; 0]); ("H", [7]); ("L", [4; 4]); ("Z", [])]
  = Ok ([(PList [0; 0], PList [4; 0]); (PList [7], PList [4; 4]);
         (PList [4; 4], PList [0; 0])], {[invalid_warning "H"]})
  ∧ length [(PList [0; 0], PList [4; 0]); (PList [7], PList [4; 4]);
            (PList [4; 4], PList [0; 0])] = 3%nat.
Proof.
  assert (H : simple_path_to_line_segments
                [("M", [0; 0]); ("L", [4; 0]); ("H", [7]); ("L", [4; 4]); ("Z", [])]
              = Ok ([(PList [0; 0], PList [4; 0]); (PList [7], PList [4; 4]);
                     (PList [4; 4], PList [0; 0])], {[invalid_warning "H"]}))
    by (vm_compute; reflexivity).
  split; [exact H|].
  apply (segmenter_segment_count (N := float_number) _ _ _ H).
Defined.

Lemma segmenter_warnings_witness :
  simple_path_to_line_segments [("M", [0; 0]); ("L", [4; 0]); ("Z", [])]
  = Ok ([(PList [0; 0], PList [4; 0]); (PList [4; 0], PList [0; 0])], ∅)
  ∧ (∅ : gset string)
    = ⋃ (warnings_of <$> [("M", [0; 0]); ("L", [4; 0]); ("Z", [])]).
Proof.
  assert (H : simple_path_to_line_segments [("M", [0; 0]); ("L", [4; 0]); ("Z", [])]
              = Ok ([(PList [0; 0], PList [4; 0]); (PList [4; 0], PList [0; 0])], ∅))
    by (vm_compute; reflexivity).
  split; [exact H|].
  destruct (segmenter_warnings (N := float_number) _ _ _ H) as [Hw _]. exact Hw.
Defined.

Lemma build_then_read_witness :
  Forall wf_line [([0; 0], [1; 0]); ([1.00001; 0], [1; 1]); ([2; 2], [3; 3])]
  ∧ (path ← line_segments_to_simple_path
              [([0; 0], [1; 0]); ([1.00001; 0], [1; 1]); ([2; 2], [3; 3])];
     simple_path_to_line_segments path)
    = Ok ([(PList [0; 0], PList [1; 0]); (PList [1; 0], PList [1; 1]);
           (PList [2; 2], PList [3; 3])], ∅).
Proof.
  assert (H : Forall wf_line
                [([0; 0], [1; 0]); ([1.00001; 0], [1; 1]); ([2; 2], [3; 3])])
    by (repeat constructor; unfold wf_point; simpl; lia).
  split; [exact H|].
  rewrite (build_then_read (N := float_number) _ H). reflexivity.
Defined.

Lemma builder_line_commands_witness :
  Forall wf_line [([0; 0], [1; 0]); ([1; 0], [1; 1]); ([2; 2], [3; 3])]
  ∧ ∃ path,
      line_segments_to_simple_path
        [([0; 0], [1; 0]); ([1; 0], [1; 1]); ([2; 2], [3; 3])] = Ok path
      ∧ List.filter (λ c : command, String.eqb c.1 "L") path
        = [("L", [1; 0]); ("L", [1; 1]); ("L", [3; 3])]
      ∧ head path = Some ("M", [0; 0])
      ∧ (3 ≤ length path ≤ 6)%nat.
Proof.
  assert (H : Forall wf_line
                [([0; 0], [1; 0]); ([1; 0], [1; 1]); ([2; 2], [3; 3])])
    by (repeat constructor; unfold wf_point; simpl; lia).
  split; [exact H|].
  apply (builder_line_commands (N := float_number) _ H).
Defined.

Lemma builder_single_polyline_witness :
  Forall wf_line [([0; 0], [1; 0]); ([1.00001; 0], [1; 1]); ([1; 1], [0; 1])]
  ∧ joined [1; 0] [([1.00001; 0], [1; 1]); ([1; 1], [0; 1])]
  ∧ line_segments_to_simple_path
      [([0; 0], [1; 0]); ([1.00001; 0], [1; 1]); ([1; 1], [0; 1])]
    = Ok [("M", [0; 0]); ("L", [1; 0]); ("L", [1; 1]); ("L", [0; 1])].
Proof.
  assert (H : Forall wf_line
                [([0; 0], [1; 0]); ([1.00001; 0], [1; 1]); ([1; 1], [0; 1])])
    by (repeat constructor; unfold wf_point; simpl; lia).
  assert (Hj : joined (N := float_number) [1; 0]
                 [([1.00001; 0], [1; 1]); ([1; 1], [0; 1])])
    by (repeat split; reflexivity).
  split; [exact H|]. split; [exact Hj|].
  apply (builder_single_polyline (N := float_number) ([0; 0], [1; 0]) _ H Hj).
Defined.

End FurtherConcreteInputs.

